(** * ledger-obsidian: transaction utilities

    A shallow embedding of [src/transaction-utils.ts]: the balance
    resolver ([getTotalAsNum], [fillMissingAmount]), the account value
    extractor ([valueForAccount]), the alias resolver ([dealiasAccount]),
    the filter engine ([filterByAccount], [filterByPayeeExact],
    [filterTransactions]), the account hierarchy builder
    ([makeAccountTree], [sortAccountTree]), and the currency and
    formatter functions ([getCurrency], [getTotal], [formatTransaction]).
    The functions on dates ([firstDate], [filterByStartDate],
    [filterByEndDate]) rest on the date library of the host and are left
    out.

    Conventions of the embedding.
    - A JavaScript [number] holding an amount is a whole number [Z] (an
      amount in minor units).  Sums and differences round as doubles do
      ([roundDouble]: 53 significant bits, ties to the even significand),
      so they are the sums and differences of [Z] up to 2^53 and differ
      from them beyond; [-1 * x] is exact.  [-0] and [0] are one value.
      Amounts with a fractional part, [NaN] and the overflow to
      [Infinity] are outside the model.
    - An optional field ([amount?: number]) is an [option]; [None] is
      [undefined].
    - A JavaScript string is a [string]; [indexOf], [substring] and
      [split] act on its characters.
    - A [Map<string, string>] is a [gmap string string].
    - An array mutated in place is passed and returned explicitly.
    - A run-time [TypeError] is the outcome [Throws] of the type [js].
    - The collation of [localeCompare] and the rendering of [toFixed]
      belong to the host; they are parameters. *)

From Stdlib Require Import ZArith Lia Ascii String Sorted.
From stdpp Require Import base option list strings gmap.

Set Warnings "-register-all".

Local Open Scope Z_scope.

(** ** Outcomes of a JavaScript call *)

Inductive js (A : Type) : Type :=
| Returns (a : A)
| Throws.
Arguments Returns {A} a.
Arguments Throws {A}.

Definition js_bind {A B} (c : js A) (k : A -> js B) : js B :=
  match c with
  | Returns a => k a
  | Throws => Throws
  end.

Notation "'let!' x ':=' c 'in' k" := (js_bind c (fun x => k))
  (at level 10, x name, c at level 200, k at level 200).

(** ** Data model (the declarations of [./parser] and [./error]) *)

(** Modelled from the spec: the [ExpenseLine] and [Transaction] types are
    declared in [./parser], which is not part of the sources at hand; the
    fields are those of section 3 of the specification.  The source reads
    them as [tx.value.expenselines], [tx.value.payee], [tx.value.date]. *)
Record ExpenseLine : Type := mkLine {
  account : string;
  dealiasedAccount : option string;
  amount : option Z;
  currency : option string
}.

Record Transaction : Type := mkTx {
  date : string;
  payee : string;
  expenselines : list ExpenseLine
}.

(** Modelled from the spec: [TxError] of [./error], as the object literal
    built in [fillMissingAmount] fills it. *)
Record TxError : Type := mkTxError {
  transaction : Transaction;
  message : string
}.

(** [Result<void, TxError>] of neverthrow. *)
Inductive Result : Type :=
| ok
| err (e : TxError).

Definition isErr (r : Result) : bool :=
  match r with ok => false | err _ => true end.

Definition isOk (r : Result) : bool :=
  match r with ok => true | err _ => false end.

(** ** Truthiness *)

(** [if (x)] on a string: the empty string is falsy. *)
Definition truthyStr (s : string) : bool :=
  match s with EmptyString => false | String _ _ => true end.

(** [if (x)] on an optional string. *)
Definition truthyOptStr (s : option string) : bool :=
  match s with Some s' => truthyStr s' | None => false end.

(** [if (x)] on an optional number: [undefined] and [0] are falsy. *)
Definition truthyNum (a : option Z) : bool :=
  match a with Some z => negb (z =? 0) | None => false end.

(** ** Arithmetic of numbers *)

(** Every whole number up to this magnitude is a double. *)
Definition maxExact : Z := 2 ^ 53.

(** The double nearest to a whole number: the number itself below 2^53;
    beyond, the multiple of the spacing [2 ^ k] that is nearest, and of
    two equally near the one with the even significand. *)
Definition roundDouble (z : Z) : Z :=
  let a := Z.abs z in
  if a <? maxExact then z
  else
    let k := Z.log2 a - 52 in
    let q := a / 2 ^ k in
    let r := a mod 2 ^ k in
    let half := 2 ^ (k - 1) in
    let q' := if r <? half then q
              else if half <? r then q + 1
              else if Z.even q then q else q + 1 in
    Z.sgn z * (q' * 2 ^ k).

(** [a + b] on numbers *)
Definition addNum (a b : Z) : Z := roundDouble (a + b).

(** [a - b] on numbers *)
Definition subNum (a b : Z) : Z := roundDouble (a - b).

(** ** Balance resolver *)

(** The loop of [getTotalAsNum]: [sum += lines[i].amount] for the lines
    whose amount is truthy. *)
Definition addTruthy (sum : Z) (line : ExpenseLine) : Z :=
  match amount line with
  | Some a => if truthyNum (Some a) then addNum sum a else sum
  | None => sum
  end.

(** [for (let i = 0; i < lines.length - 1; i++)]: every line but the last. *)
Definition sumOfNonLast (lines : list ExpenseLine) : Z :=
  foldl addTruthy 0 (take (length lines - 1)%nat lines).

(** [-1 * lines[lines.length - 1].amount]; [None] when that amount is
    [undefined] or there is no last line. *)
Definition negatedLast (lines : list ExpenseLine) : option Z :=
  match last lines with
  | Some l => match amount l with Some a => Some (-1 * a) | None => None end
  | None => None
  end.

Definition getTotalAsNum (tx : Transaction) : js Z :=
  let lines := expenselines tx in
  match last lines with
  | None => Throws (* lines[-1] is undefined: reading .amount throws *)
  | Some lastLine =>
      match amount lastLine with
      | Some a =>
          if truthyNum (Some a) then Returns (-1 * a)
          else Returns (sumOfNonLast lines)
      | None => Returns (sumOfNonLast lines) (* undefined is falsy *)
      end
  end.

(** The locals of the scanning loop of [fillMissingAmount];
    [missingIndex = -1] is [None]. *)
Record ScanState : Type := mkScan {
  commentLines : list nat;
  missingIndex : option nat
}.

(** The scanning loop from index [i] on; [None] is the early
    [return err(...)]. *)
Fixpoint scanLines (i : nat) (rest : list ExpenseLine) (st : ScanState)
  : option ScanState :=
  match rest with
  | [] => Some st
  | line :: rest' =>
      match amount line with
      | None =>
          if negb (truthyStr (account line))
          then scanLines (S i) rest'
                 (mkScan (commentLines st ++ [i]) (missingIndex st))
          else match missingIndex st with
               | Some _ => None
               | None => scanLines (S i) rest' (mkScan (commentLines st) (Some i))
               end
      | Some _ => scanLines (S i) rest' st
      end
  end.

(** The callback of [lines.reduce] in the non-last branch.  A line whose
    amount is [undefined] is never subtracted after a successful scan
    (lemma [scanLines_undefined] below), so that case keeps [prev]. *)
Definition reduceStep (missing n : nat) (comments : list nat)
    (prev : Z) (i : nat) (line : ExpenseLine) : Z :=
  if (i =? missing)%nat || (i + 1 =? n)%nat || existsb (Nat.eqb i) comments
  then prev
  else match amount line with
       | Some a => subNum prev a
       | None => prev
       end.

Fixpoint reduceFrom (missing n : nat) (comments : list nat)
    (i : nat) (rest : list ExpenseLine) (prev : Z) : Z :=
  match rest with
  | [] => prev
  | line :: rest' =>
      reduceFrom missing n comments (S i) rest'
        (reduceStep missing n comments prev i line)
  end.

(** [lines[i].amount = v] *)
Definition setAmount (line : ExpenseLine) (v : Z) : ExpenseLine :=
  mkLine (account line) (dealiasedAccount line) (Some v) (currency line).

Definition writeAmount (tx : Transaction) (i : nat) (v : Z) : Transaction :=
  mkTx (date tx) (payee tx)
       (alter (fun line => setAmount line v) i (expenselines tx)).

Definition multipleMissing : string :=
  "Transaction has multiple expense lines without an amount. At most one is allowed.".

(** [fillMissingAmount] returns its result together with the transaction
    as the call leaves it. *)
Definition fillMissingAmount (tx : Transaction) : js (Result * Transaction) :=
  let lines := expenselines tx in
  match scanLines 0 lines (mkScan [] None) with
  | None => Returns (err (mkTxError tx multipleMissing), tx)
  | Some st =>
      match missingIndex st with
      | None => Returns (ok, tx)
      | Some m =>
          let! total := getTotalAsNum tx in
          if (m + 1 =? length lines)%nat
          then Returns (ok, writeAmount tx m (-1 * total))
          else Returns (ok, writeAmount tx m
                 (reduceFrom m (length lines) (commentLines st) 0 lines total))
      end
  end.

(** ** Account value extractor *)

(** [(line.account && line.account === account) ||
     (line.dealiasedAccount && line.dealiasedAccount === account)] *)
Definition lineMatches (line : ExpenseLine) (acct : string) : bool :=
  (truthyStr (account line) && String.eqb (account line) acct)
  || match dealiasedAccount line with
     | Some d => truthyStr d && String.eqb d acct
     | None => false
     end.

(** The loop of [valueForAccount] from index [i] on.  The value returned
    is [line.amount], which may be [undefined] ([None]). *)
Fixpoint valueFrom (tx : Transaction) (i : nat) (rest : list ExpenseLine)
    (acct : string) : js (option Z) :=
  match rest with
  | [] => Returns (Some 0)
  | line :: rest' =>
      if lineMatches line acct
      then if (i + 1 =? length (expenselines tx))%nat
           then let! total := getTotalAsNum tx in Returns (Some (-1 * total))
           else Returns (amount line)
      else valueFrom tx (S i) rest' acct
  end.

Definition valueForAccount (tx : Transaction) (acct : string) : js (option Z) :=
  valueFrom tx 0 (expenselines tx) acct.

(** ** Filter engine *)

Definition Filter : Type := Transaction -> bool.

(** lodash [some(collection, predicate)] *)
Definition some {A} (xs : list A) (p : A -> bool) : bool := existsb p xs.

(** [s.startsWith(p)] *)
Fixpoint startsWith (s p : string) : bool :=
  match p, s with
  | EmptyString, _ => true
  | String b p', String a s' => Ascii.eqb a b && startsWith s' p'
  | String _ _, EmptyString => false
  end.

Definition filterByAccount (acct : string) : Filter :=
  fun tx =>
    some (expenselines tx) (fun line =>
      (truthyStr (account line) && startsWith (account line) acct)
      || match dealiasedAccount line with
         | Some d => truthyStr d && startsWith d acct
         | None => false
         end).

Definition filterByPayeeExact (acct : string) : Filter :=
  fun tx => String.eqb (payee tx) acct.

Definition filterTransactions (txs : list Transaction) (filters : list Filter)
  : list Transaction :=
  if (0 <? length filters)%nat
  then List.filter (fun tx => some filters (fun fn => fn tx)) txs
  else txs.

(** ** Alias resolver *)

(** [s.indexOf(c)] for a one-character needle; [-1] when absent. *)
Fixpoint indexOf (c : ascii) (s : string) : Z :=
  match s with
  | EmptyString => -1
  | String a s' =>
      if Ascii.eqb a c then 0
      else let r := indexOf c s' in if r <? 0 then -1 else r + 1
  end.

(** [s.substring(0, n)] *)
Fixpoint substringTo (n : nat) (s : string) : string :=
  match n, s with
  | S n', String a s' => String a (substringTo n' s')
  | _, _ => EmptyString
  end.

(** [s.substring(n)] *)
Fixpoint substringFrom (n : nat) (s : string) : string :=
  match n, s with
  | S n', String _ s' => substringFrom n' s'
  | _, _ => s
  end.

Definition colon : ascii := ":"%char.

Definition dealiasAccount (acct : string) (aliases : gmap string string)
  : string :=
  let firstDelimeter := indexOf colon acct in
  if 0 <? firstDelimeter
  then
    let prefix := substringTo (Z.to_nat firstDelimeter) acct in
    match aliases !! prefix with
    | Some v => (v ++ substringFrom (Z.to_nat firstDelimeter) acct)%string
    | None => acct
    end
  else
    match aliases !! acct with
    | Some v => v
    | None => acct
    end.

(** ** Account hierarchy builder *)

Module Tree.

(** [interface Node]; [subRows] and [expanded] are optional. *)
Inductive Node : Type :=
| mkNode (id account : string) (subRows : option (list Node))
         (expanded : option bool).

Definition id (n : Node) : string :=
  match n with mkNode i _ _ _ => i end.
Definition account (n : Node) : string :=
  match n with mkNode _ a _ _ => a end.
Definition subRows (n : Node) : option (list Node) :=
  match n with mkNode _ _ r _ => r end.
Definition expanded (n : Node) : option bool :=
  match n with mkNode _ _ _ e => e end.

(** [node.subRows = rows] *)
Definition setSubRows (n : Node) (rows : list Node) : Node :=
  mkNode (id n) (account n) (Some rows) (expanded n).

(** [s.split(c)] for a one-character separator; the result is never empty. *)
Fixpoint split (c : ascii) (s : string) : list string :=
  match s with
  | EmptyString => [EmptyString]
  | String a s' =>
      if Ascii.eqb a c then EmptyString :: split c s'
      else match split c s' with
           | p :: ps => String a p :: ps
           | [] => [String a EmptyString]
           end
  end.

(** [parts.join(sep)] *)
Fixpoint join (sep : string) (parts : list string) : string :=
  match parts with
  | [] => EmptyString
  | [p] => p
  | p :: ps => (p ++ sep ++ join sep ps)%string
  end.

(** [`${parent}:${part}`] when [parent] is truthy, else [part]. *)
Definition qualify (parent : option string) (part : string) : string :=
  match parent with
  | Some p => if truthyStr p then (p ++ ":" ++ part)%string else part
  | None => part
  end.

(** [makeAccountTree] mutates [nodes] in place and returns nothing; here
    it returns the array as the call leaves it.  The recursion is on a
    string rebuilt by [join], so the definition carries fuel; [None] is
    fuel exhausted. *)
Fixpoint makeAccountTree_fuel (fuel : nat) (nodes : list Node)
    (newValue : string) (parent : option string) : option (list Node) :=
  match fuel with
  | O => None
  | S fuel' =>
      let parts := split colon newValue in
      let part0 := hd EmptyString parts in
      let fullName := qualify parent part0 in
      (* destNode, by its index in the array after a possible push *)
      let '(nodes1, i, destNode) :=
        match list_find (fun val => account val = part0) nodes with
        | Some (i, val) => (nodes, i, val)
        | None =>
            let fresh := mkNode fullName part0 None None in
            (nodes ++ [fresh], length nodes, fresh)
        end in
      if (1 <? length parts)%nat
      then
        let rows := match subRows destNode with
                    | Some rows => rows
                    | None => []
                    end in
        let newParent := qualify parent part0 in
        match makeAccountTree_fuel fuel' rows
                (join ":" (tail parts)) (Some newParent) with
        | Some rows' => Some (<[i := setSubRows destNode rows']> nodes1)
        | None => None
        end
      else Some nodes1
  end.

(** Each call removes one part, so the number of parts is enough fuel. *)
Definition makeAccountTree (nodes : list Node) (newValue : string)
    (parent : option string) : option (list Node) :=
  makeAccountTree_fuel (length (split colon newValue)) nodes newValue parent.

Section Sorting.

(** [a.localeCompare(b, 'en', { numeric: true })]: the collation of the
    host is not part of the sources; it is a parameter. *)
Variable localeCompare : string -> string -> Z.

Definition compareNodes (a b : Node) : Z :=
  localeCompare (account a) (account b).

(** [nodes.sort(cmp)]: a stable sort; an element stays in front of the
    later elements it does not compare greater than. *)
Fixpoint sortInsert (x : Node) (sorted : list Node) : list Node :=
  match sorted with
  | [] => [x]
  | y :: sorted' =>
      if compareNodes x y <=? 0 then x :: y :: sorted'
      else y :: sortInsert x sorted'
  end.

Definition sort (nodes : list Node) : list Node :=
  foldr sortInsert [] nodes.

(** [sortAccountTree] sorts [nodes] in place, then every [subRows];
    here it returns the sorted array.  The recursion is on the elements
    of the sorted array, so the definition carries fuel. *)
Fixpoint sortAccountTree_fuel (fuel : nat) (nodes : list Node)
  : option (list Node) :=
  match fuel with
  | O => None
  | S fuel' =>
      mapM (fun node =>
              match subRows node with
              | Some rows =>
                  match sortAccountTree_fuel fuel' rows with
                  | Some rows' => Some (setSubRows node rows')
                  | None => None
                  end
              | None => Some node
              end)
           (sort nodes)
  end.

(** The nesting depth of a forest. *)
Fixpoint depth (n : Node) : nat :=
  match n with
  | mkNode _ _ (Some rows) _ => S (foldr (fun r d => Nat.max (depth r) d) O rows)
  | mkNode _ _ None _ => O
  end.

Definition depthAll (nodes : list Node) : nat :=
  foldr (fun r d => Nat.max (depth r) d) O nodes.

Definition sortAccountTree (nodes : list Node) : option (list Node) :=
  sortAccountTree_fuel (S (depthAll nodes)) nodes.

End Sorting.

(** The insertions of a list of paths, in order, into an array. *)
Fixpoint insertAll (nodes : list Node) (paths : list string)
  : option (list Node) :=
  match paths with
  | [] => Some nodes
  | p :: paths' =>
      match makeAccountTree nodes p None with
      | Some nodes' => insertAll nodes' paths'
      | None => None
      end
  end.

End Tree.

(** ** Currency and formatter *)

(** The loop of [getCurrency]: the currency of the first line that has a
    truthy one, else [defaultCurrency]. *)
Fixpoint getCurrencyFrom (rest : list ExpenseLine) (defaultCurrency : string)
  : string :=
  match rest with
  | [] => defaultCurrency
  | line :: rest' =>
      match currency line with
      | Some c =>
          if truthyStr c then c else getCurrencyFrom rest' defaultCurrency
      | None => getCurrencyFrom rest' defaultCurrency
      end
  end.

Definition getCurrency (tx : Transaction) (defaultCurrency : string) : string :=
  getCurrencyFrom (expenselines tx) defaultCurrency.

(** The line feed of the template literals. *)
Definition newline : string := String "010"%char EmptyString.

Section Formatting.

(** [x.toFixed(2)]: the rendering of numbers belongs to the host; it is a
    parameter. *)
Variable toFixed2 : Z -> string.

Definition getTotal (tx : Transaction) (defaultCurrency : string) : js string :=
  let currency := getCurrency tx defaultCurrency in
  let! total := getTotalAsNum tx in
  Returns (currency ++ toFixed2 total)%string.

(** The callback of [map] in [formatTransaction], for line [i] of [n];
    [amount.toFixed] throws on an amount that is [undefined]. *)
Definition formatLine (currencySymbol : string) (n i : nat) (line : ExpenseLine)
  : js string :=
  if negb (i =? n - 1)%nat
  then match amount line with
       | Some a =>
           Returns ("    " ++ account line ++ "    " ++ currencySymbol
                    ++ toFixed2 a)%string
       | None => Throws
       end
  else Returns ("    " ++ account line)%string.

(** [expenselines.map(...)] from index [i] on; the first throw ends it. *)
Fixpoint formatLinesFrom (currencySymbol : string) (n i : nat)
    (rest : list ExpenseLine) : js (list string) :=
  match rest with
  | [] => Returns []
  | line :: rest' =>
      let! s := formatLine currencySymbol n i line in
      let! ss := formatLinesFrom currencySymbol n (S i) rest' in
      Returns (s :: ss)
  end.

Definition formatTransaction (tx : Transaction) (currencySymbol : string)
  : js string :=
  let lines := expenselines tx in
  let! rendered := formatLinesFrom currencySymbol (length lines) 0 lines in
  let joinedLines := Tree.join newline rendered in
  Returns (newline ++ date tx ++ " " ++ payee tx ++ newline ++ joinedLines)%string.

End Formatting.

(** * Vocabulary of the properties *)

(** ** Lines and amounts *)

(** A line that counts as missing: a non-comment line (non-empty account)
    whose amount is absent. *)
Definition isMissing (line : ExpenseLine) : bool :=
  match amount line with
  | None => truthyStr (account line)
  | Some _ => false
  end.

(** The number of missing lines of a transaction. *)
Definition missingCount (lines : list ExpenseLine) : nat :=
  length (List.filter isMissing lines).

(** A comment line: empty account, absent amount. *)
Definition isComment (line : ExpenseLine) : bool :=
  match amount line with
  | None => negb (truthyStr (account line))
  | Some _ => false
  end.

(** The amount of a line, an absent amount counting as [0]. *)
Definition amountOr0 (line : ExpenseLine) : Z :=
  match amount line with Some a => a | None => 0 end.

(** The sum of the amounts of some lines, absent amounts counting as [0]. *)
Definition sumAmounts (lines : list ExpenseLine) : Z :=
  foldr (fun line s => amountOr0 line + s) 0 lines.

(** The sum of some lines as the loop of [getTotalAsNum] adds them up:
    from the left, each partial sum rounded. *)
Definition sumLoop (lines : list ExpenseLine) : Z := foldl addTruthy 0 lines.

(** The sum of the magnitudes of the amounts of some lines.  While it
    stays within [maxExact], whatever the code adds or subtracts among
    these amounts is exact. *)
Definition sumAbs (lines : list ExpenseLine) : Z :=
  foldr (fun line s => Z.abs (amountOr0 line) + s) 0 lines.

(** One when the scan has met a missing line, else zero. *)
Definition pending (st : ScanState) : nat :=
  match missingIndex st with Some _ => 1 | None => 0 end.

(** A line with an account and, possibly, an amount. *)
Definition line (acct : string) (a : option Z) : ExpenseLine :=
  mkLine acct None a None.

(** A transaction with two amounts left out. *)
Definition twoMissingTx : Transaction :=
  mkTx "2021-01-01" "Shop"
       [line "Expenses:Food" None; line "Expenses:Drink" None;
        line "Assets:Cash" (Some (-30))].

(** The indices, counted from [i], of the comment lines of [lines]. *)
Fixpoint commentIndices (i : nat) (lines : list ExpenseLine) : list nat :=
  match lines with
  | [] => []
  | l :: lines' =>
      if isComment l then i :: commentIndices (S i) lines'
      else commentIndices (S i) lines'
  end.

(** A transaction of the ledger format: the second amount is left out and
    the last line carries an explicit amount of zero. *)
Definition zeroLastTx : Transaction :=
  mkTx "2021-05-06" "Shop"
       [line "Expenses:Food" (Some 30); line "Assets:Cash" None;
        line "Equity:Adjust" (Some 0)].


(** A transaction of the ledger format that ends in a comment line; the
    second amount is left out. *)
Definition trailingCommentTx : Transaction :=
  mkTx "2021-05-07" "Shop"
       [line "Expenses:Food" (Some 30); line "Assets:Cash" None;
        line EmptyString None].

(** The lines the callback of [reduce] passes over: the missing one and
    the last one. *)
Definition skipped (m n i : nat) : bool := (i =? m)%nat || (i + 1 =? n)%nat.

(** The sum of the amounts the callback subtracts, from index [i] on. *)
Fixpoint sumKept (m n i : nat) (xs : list ExpenseLine) : Z :=
  match xs with
  | [] => 0
  | x :: xs' => (if skipped m n i then 0 else amountOr0 x) + sumKept m n (S i) xs'
  end.

(** The sum of the magnitudes of the amounts the callback subtracts. *)
Fixpoint sumAbsKept (m n i : nat) (xs : list ExpenseLine) : Z :=
  match xs with
  | [] => 0
  | x :: xs' =>
      (if skipped m n i then 0 else Z.abs (amountOr0 x))
      + sumAbsKept m n (S i) xs'
  end.

(** The amount the non-last branch of [fillMissingAmount] writes on the
    missing line [m] of the lines [pre ++ m :: mid ++ [l]]: the total,
    less the other lines before the last, one after the other. *)
Definition filledValue (pre mid : list ExpenseLine) (m l : ExpenseLine) : Z :=
  let lines := pre ++ m :: mid ++ [l] in
  reduceFrom (length pre) (length lines) (commentIndices 0 lines) 0 lines
    (if truthyNum (amount l) then -1 * amountOr0 l
     else sumLoop (pre ++ m :: mid)).

(** ** Accounts and their values *)




(** Every non-comment line has a present amount. *)
Definition resolved (tx : Transaction) : Prop :=
  forall l, In l (expenselines tx) ->
    truthyStr (account l) = true -> exists a, amount l = Some a.

(** The amounts of the lines sum to zero. *)
Definition balanced (tx : Transaction) : Prop :=
  sumAmounts (expenselines tx) = 0.

(** The magnitudes of the amounts of the transaction sum to 2^53 at most:
    the code adds and subtracts them without rounding. *)
Definition withinExact (tx : Transaction) : Prop :=
  sumAbs (expenselines tx) <= maxExact.

(** A transaction on which a sum of the code rounds: the amounts sum to
    zero and the last line carries an explicit zero. *)
Definition roundedZeroTx : Transaction :=
  mkTx "2021-09-11" "Bank"
       [line "Assets:A" (Some 9007199254740992); line "Assets:B" (Some 1);
        line "Assets:C" (Some (-1));
        line "Assets:D" (Some (-9007199254740992));
        line "Assets:E" (Some 0)].



(** A balanced transaction with an aliased account and a comment line. *)
Definition groceriesTx : Transaction :=
  mkTx "2021-02-03" "Market"
       [mkLine "Exp:Food" (Some "Expenses:Food") (Some 25) None;
        line EmptyString None;
        line "Expenses:Drink" (Some 5);
        line "Assets:Cash" (Some (-30))].


(** ** Filters, aliases and trees *)

(** A transaction is matched by at least one filter of a list. *)
Definition matchedByAny (filters : list Filter) (tx : Transaction) : Prop :=
  exists fn, In fn filters /\ fn tx = true.

(** [Kept P txs res]: [res] is [txs] with exactly the elements that
    satisfy [P] kept, each at its place. *)
Inductive Kept (P : Transaction -> Prop)
  : list Transaction -> list Transaction -> Prop :=
| Kept_nil : Kept P [] []
| Kept_keep tx txs res : P tx -> Kept P txs res -> Kept P (tx :: txs) (tx :: res)
| Kept_drop tx txs res : ~ P tx -> Kept P txs res -> Kept P (tx :: txs) res.

(** A string without a colon. *)
Definition noColon (s : string) : Prop := ~ In colon (list_ascii_of_string s).

(** The claim of the specification, word for word: the name is split at
    its first colon and the prefix replaced when it is an alias key; a
    name without a colon is replaced wholesale when it is an alias key;
    otherwise the name is returned as it is. *)
Definition dealiasAccount_asStated (acct : string) (aliases : gmap string string)
  : string :=
  let firstColon := indexOf colon acct in
  if 0 <=? firstColon
  then match aliases !! substringTo (Z.to_nat firstColon) acct with
       | Some v => (v ++ substringFrom (Z.to_nat firstColon) acct)%string
       | None => acct
       end
  else match aliases !! acct with
       | Some v => v
       | None => acct
       end.

(** An alias map whose one key begins with a colon. *)
Definition colonAliases : gmap string string := {[":x" := "Y"]}.

(** No two siblings carry one segment name, at any level. *)
Fixpoint uniqueSiblings (n : Tree.Node) : bool :=
  match n with
  | Tree.mkNode _ _ (Some rows) _ =>
      bool_decide (NoDup (map Tree.account rows)) && forallb uniqueSiblings rows
  | Tree.mkNode _ _ None _ => true
  end.

Definition uniqueSiblingsAll (nodes : list Tree.Node) : bool :=
  bool_decide (NoDup (map Tree.account nodes)) && forallb uniqueSiblings nodes.

Definition leaf (i a : string) : Tree.Node := Tree.mkNode i a None None.

Definition branch (i a : string) (rows : list Tree.Node) : Tree.Node :=
  Tree.mkNode i a (Some rows) None.

Definition examplePaths : list string :=
  ["Expenses:Food:Groceries"; "Expenses:Food:Restaurants"; "Assets:Cash"].

(** The tree as the three insertions leave it. *)
Definition exampleBuilt : list Tree.Node :=
  [branch "Expenses" "Expenses"
     [branch "Expenses:Food" "Food"
        [leaf "Expenses:Food:Groceries" "Groceries";
         leaf "Expenses:Food:Restaurants" "Restaurants"]];
   branch "Assets" "Assets" [leaf "Assets:Cash" "Cash"]].

(** The tree of the example, sorted. *)
Definition exampleSorted : list Tree.Node :=
  [branch "Assets" "Assets" [leaf "Assets:Cash" "Cash"];
   branch "Expenses" "Expenses"
     [branch "Expenses:Food" "Food"
        [leaf "Expenses:Food:Groceries" "Groceries";
         leaf "Expenses:Food:Restaurants" "Restaurants"]]].

(** A collation to try the example with: the order of the character
    codes. *)
Definition codeCompare (a b : string) : Z :=
  match String.compare a b with
  | Lt => -1
  | Eq => 0
  | Gt => 1
  end.

(** ** What a fill may change *)

(** A line after the fill: the line as it was, or a missing line with an
    amount written in. *)
Definition sameButFilled (l l' : ExpenseLine) : Prop :=
  l' = l \/ (isMissing l = true /\ exists v, l' = setAmount l v).

(** A transaction with one amount left out in the middle. *)
Definition middleMissingTx : Transaction :=
  mkTx "2021-06-07" "Shop"
       [line "Expenses:Food" (Some 30); line "Expenses:Drink" None;
        line EmptyString None; line "Assets:Cash" (Some (-45))].

(** ** Paths in the account tree *)

(** The insertion of [makeAccountTree], by the parts of the path: the
    recursion of the source on the re-joined string, unfolded. *)
Fixpoint insertParts (nodes : list Tree.Node) (parts : list string)
    (parent : option string) : list Tree.Node :=
  match parts with
  | [] => nodes
  | part0 :: rest =>
      let fullName := Tree.qualify parent part0 in
      let '(nodes1, i, destNode) :=
        match list_find (fun val => Tree.account val = part0) nodes with
        | Some (i, val) => (nodes, i, val)
        | None =>
            let fresh := Tree.mkNode fullName part0 None None in
            (nodes ++ [fresh], length nodes, fresh)
        end in
      match rest with
      | [] => nodes1
      | _ :: _ =>
          let rows := match Tree.subRows destNode with
                      | Some rows => rows
                      | None => []
                      end in
          <[i := Tree.setSubRows destNode (insertParts rows rest (Some fullName))]>
            nodes1
      end
  end.

(** The tree holds a path: a node for the first part, and below it the
    rest of the path. *)
Fixpoint hasPath (nodes : list Tree.Node) (parts : list string) : bool :=
  match parts with
  | [] => true
  | part0 :: rest =>
      match list_find (fun val => Tree.account val = part0) nodes with
      | Some (_, val) =>
          match rest with
          | [] => true
          | _ :: _ =>
              match Tree.subRows val with
              | Some rows => hasPath rows rest
              | None => false
              end
          end
      | None => false
      end
  end.

(** A level is in order: each node compares at most equal to the next. *)
Definition sortedLevel (cmp : string -> string -> Z) (nodes : list Tree.Node)
  : Prop :=
  Sorted (fun a b => cmp a b <= 0) (map Tree.account nodes).

(** Every level below a node is in order. *)
Fixpoint sortedBelow (cmp : string -> string -> Z) (n : Tree.Node) : Prop :=
  match n with
  | Tree.mkNode _ _ (Some rows) _ =>
      sortedLevel cmp rows /\ foldr (fun r P => sortedBelow cmp r /\ P) True rows
  | Tree.mkNode _ _ None _ => True
  end.

(** Every level of a forest is in order. *)
Definition sortedTree (cmp : string -> string -> Z) (nodes : list Tree.Node)
  : Prop :=
  sortedLevel cmp nodes /\ foldr (fun r P => sortedBelow cmp r /\ P) True nodes.

(** A collation to try the sort with: shorter names first. *)
Definition lengthCompare (a b : string) : Z :=
  Z.of_nat (String.length a) - Z.of_nat (String.length b).

(** [node.subRows], the empty array when there is none. *)
Definition rowsOf (n : Tree.Node) : list Tree.Node :=
  match Tree.subRows n with
  | Some rows => rows
  | None => []
  end.

(** The [id] of a node is its name qualified by the path of its parent,
    and so for every node below it. *)
Fixpoint idsQualified (parent : option string) (n : Tree.Node) : bool :=
  match n with
  | Tree.mkNode i a rows _ =>
      String.eqb i (Tree.qualify parent a)
      && match rows with
         | Some rows => forallb (idsQualified (Some i)) rows
         | None => true
         end
  end.

(** The first segment of a path, and the segments after it. *)
Definition firstPart (path : string) : string :=
  hd EmptyString (Tree.split colon path).

Definition restParts (path : string) : list string :=
  tail (Tree.split colon path).

(** A transaction in which a difference of the code rounds. *)
Definition roundedInnerTx : Transaction :=
  mkTx "2021-09-13" "Bank"
       [line "Assets:A" (Some 9007199254740994); line "Assets:B" (Some 1);
        line "Assets:C" None; line "Assets:D" (Some 4)].

(** * Properties *)

(** ** Rounding *)

(** Up to 2^53 a whole number is its own double. *)
Lemma roundDouble_exact z : Z.abs z <= maxExact -> roundDouble z = z.
Proof.
  intros H. unfold roundDouble.
  destruct (Z.ltb_spec (Z.abs z) maxExact) as [_|Hge]; [reflexivity|].
  assert (z = maxExact \/ z = - maxExact) as [-> | ->] by lia;
    vm_compute; reflexivity.
Qed.

Lemma addNum_exact a b : Z.abs a + Z.abs b <= maxExact -> addNum a b = a + b.
Proof. intros H. apply roundDouble_exact. lia. Qed.

Lemma subNum_exact a b : Z.abs a + Z.abs b <= maxExact -> subNum a b = a - b.
Proof. intros H. apply roundDouble_exact. lia. Qed.

Lemma sumAbs_nonneg lines : 0 <= sumAbs lines.
Proof. induction lines as [|x xs IH]; simpl; lia. Qed.

Lemma sumAbs_app xs ys : sumAbs (xs ++ ys) = sumAbs xs + sumAbs ys.
Proof. induction xs as [|x xs IH]; simpl; [reflexivity|]. rewrite IH. lia. Qed.

Lemma sumAmounts_app xs ys : sumAmounts (xs ++ ys) = sumAmounts xs + sumAmounts ys.
Proof. induction xs as [|x xs IH]; simpl; [reflexivity|]. rewrite IH. lia. Qed.

Lemma sumAmounts_bound lines : Z.abs (sumAmounts lines) <= sumAbs lines.
Proof. induction lines as [|x xs IH]; simpl; lia. Qed.

(** ** The summation loop *)

Lemma addTruthy_exact sum line :
  Z.abs (sum + amountOr0 line) <= maxExact ->
  addTruthy sum line = sum + amountOr0 line.
Proof.
  unfold addTruthy, amountOr0. destruct (amount line) as [a|]; simpl; [|lia].
  intros H. destruct (Z.eqb_spec a 0); simpl; [lia|].
  apply roundDouble_exact. exact H.
Qed.

(** Within [maxExact] the loop adds up exactly. *)
Lemma foldl_addTruthy_exact lines : forall sum,
  Z.abs sum + sumAbs lines <= maxExact ->
  foldl addTruthy sum lines = sum + sumAmounts lines.
Proof.
  induction lines as [|line lines IH]; intros sum H; simpl in *; [lia|].
  pose proof (sumAbs_nonneg lines).
  rewrite addTruthy_exact by lia. rewrite IH by lia. lia.
Qed.

(** The loop also adds up exactly where its result and the amounts
    still to come stay within [maxExact]. *)
Lemma foldl_addTruthy_exact_back lines : forall sum,
  Z.abs (sum + sumAmounts lines) + sumAbs lines <= maxExact ->
  foldl addTruthy sum lines = sum + sumAmounts lines.
Proof.
  induction lines as [|line lines IH]; intros sum H; simpl in *; [lia|].
  pose proof (sumAbs_nonneg lines). pose proof (sumAmounts_bound lines).
  rewrite addTruthy_exact by lia. rewrite IH by lia. lia.
Qed.

Lemma sumLoop_exact lines : sumAbs lines <= maxExact -> sumLoop lines = sumAmounts lines.
Proof.
  intros H. unfold sumLoop. rewrite foldl_addTruthy_exact; simpl; lia.
Qed.

Lemma sumOfNonLast_snoc init l : sumOfNonLast (init ++ [l]) = sumLoop init.
Proof.
  unfold sumOfNonLast, sumLoop. rewrite length_app. simpl.
  replace (length init + 1 - 1)%nat with (length init) by lia.
  rewrite take_app_length. reflexivity.
Qed.

Lemma getTotalAsNum_snoc d p init l :
  getTotalAsNum (mkTx d p (init ++ [l])) =
  Returns (if truthyNum (amount l) then -1 * amountOr0 l else sumLoop init).
Proof.
  unfold getTotalAsNum. cbn [expenselines]. rewrite last_snoc, sumOfNonLast_snoc.
  unfold amountOr0. destruct (amount l) as [a|]; [|reflexivity].
  destruct (truthyNum (Some a)); reflexivity.
Qed.

(** [getTotalAsNum] throws on no line at all, and only then. *)
Lemma getTotalAsNum_returns tx :
  expenselines tx <> [] -> exists total, getTotalAsNum tx = Returns total.
Proof.
  destruct tx as [d p lines]. simpl. intros Hne.
  destruct (decide (lines = [])) as [->|_]; [congruence|].
  assert (exists init l, lines = init ++ [l]) as (init & l & ->).
  { destruct lines as [|x xs] using rev_ind; [congruence|]. eauto. }
  rewrite getTotalAsNum_snoc. eauto.
Qed.

(** ** The scanning loop *)

Lemma missingCount_cons line lines :
  missingCount (line :: lines) =
  ((if isMissing line then 1 else 0) + missingCount lines)%nat.
Proof. unfold missingCount. simpl. destruct (isMissing line); reflexivity. Qed.

Lemma missingCount_app xs ys :
  missingCount (xs ++ ys) = (missingCount xs + missingCount ys)%nat.
Proof. unfold missingCount. rewrite List.filter_app, length_app. reflexivity. Qed.

(** The loop returns early exactly when a second missing line is met. *)
Lemma scanLines_None rest : forall i st,
  scanLines i rest st = None <-> (2 <= pending st + missingCount rest)%nat.
Proof.
  induction rest as [|line rest IH]; intros i st; simpl.
  - unfold pending, missingCount. simpl.
    destruct (missingIndex st); split; (discriminate || lia).
  - rewrite missingCount_cons. unfold isMissing.
    destruct (amount line) as [a|].
    + rewrite IH. simpl. lia.
    + destruct (truthyStr (account line)); simpl.
      * unfold pending at 1. destruct (missingIndex st) as [m|] eqn:Hm.
        -- split; [lia|reflexivity].
        -- rewrite IH. unfold pending. simpl. lia.
      * rewrite IH. unfold pending. simpl. lia.
Qed.

Lemma scanLines_Some rest : forall i st st',
  scanLines i rest st = Some st' ->
  pending st' = (pending st + missingCount rest)%nat.
Proof.
  induction rest as [|line rest IH]; intros i st st'; simpl.
  - intros [= ->]. unfold missingCount. simpl. lia.
  - rewrite missingCount_cons. unfold isMissing.
    destruct (amount line) as [a|].
    + intros H. apply IH in H. lia.
    + destruct (truthyStr (account line)); simpl.
      * destruct (missingIndex st) as [m|] eqn:Hm; [discriminate|].
        intros H. apply IH in H. unfold pending in *. simpl in H.
        rewrite Hm. lia.
      * intros H. apply IH in H. unfold pending in *. simpl in H. lia.
Qed.

(** ** Failure and success of [fillMissingAmount] *)

Lemma missingCount_nil_inv lines : (1 <= missingCount lines)%nat -> lines <> [].
Proof. intros H ->. unfold missingCount in H. simpl in H. lia. Qed.

(** C2: [fillMissingAmount] always returns (it never throws); it returns
    the error exactly when more than one non-comment line has an absent
    amount, and success exactly when at most one has.  Comment lines are
    not counted: [missingCount] counts the lines with an absent amount
    and a non-empty account. *)
Theorem fillMissingAmount_err_iff_multiple_missing (tx : Transaction) :
  exists r tx',
    fillMissingAmount tx = Returns (r, tx')
    /\ (isErr r = true <-> (2 <= missingCount (expenselines tx))%nat)
    /\ (isOk r = true <-> (missingCount (expenselines tx) <= 1)%nat).
Proof.
  unfold fillMissingAmount.
  destruct (scanLines 0 (expenselines tx) (mkScan [] None)) as [st|] eqn:Hscan.
  - pose proof (scanLines_Some _ _ _ _ Hscan) as Hp.
    assert (missingCount (expenselines tx) <= 1)%nat as Hle.
    { unfold pending in Hp. simpl in Hp. destruct (missingIndex st); lia. }
    destruct (missingIndex st) as [m|] eqn:Hm.
    + destruct (getTotalAsNum_returns tx) as [total ->].
      { apply missingCount_nil_inv. unfold pending in Hp. rewrite Hm in Hp.
        simpl in Hp. lia. }
      simpl. destruct (m + 1 =? length (expenselines tx))%nat;
        eexists _, _; (split; [reflexivity|]); simpl;
        (split; split; intros; (discriminate || lia || reflexivity)).
    + eexists _, _. split; [reflexivity|]. simpl.
      split; split; intros; (discriminate || lia || reflexivity).
  - apply scanLines_None in Hscan. unfold pending in Hscan. simpl in Hscan.
    eexists _, _. split; [reflexivity|]. simpl.
    split; split; intros; (discriminate || lia || reflexivity).
Qed.

(** C9: when [fillMissingAmount] returns the error, the transaction is
    as it was before the call: no amount has been written. *)
Theorem fillMissingAmount_err_leaves_tx (tx tx' : Transaction) (r : Result) :
  fillMissingAmount tx = Returns (r, tx') ->
  isErr r = true ->
  tx' = tx.
Proof.
  unfold fillMissingAmount.
  destruct (scanLines 0 (expenselines tx) (mkScan [] None)) as [st|].
  - destruct (missingIndex st) as [m|].
    + destruct (getTotalAsNum tx) as [total|]; simpl; [|discriminate].
      destruct (m + 1 =? length (expenselines tx))%nat;
        intros [= <- <-]; discriminate.
    + intros [= <- <-]; discriminate.
  - intros [= <- <-] _. reflexivity.
Qed.

Lemma fillMissingAmount_err_leaves_tx_witness :
  fillMissingAmount twoMissingTx
    = Returns (err (mkTxError twoMissingTx multipleMissing), twoMissingTx)
  /\ twoMissingTx = twoMissingTx.
Proof.
  split; [reflexivity|].
  apply (fillMissingAmount_err_leaves_tx twoMissingTx twoMissingTx
           (err (mkTxError twoMissingTx multipleMissing)));
    reflexivity.
Defined.

(** ** The scan over lines none of which is missing *)

Lemma scanLines_app xs : forall ys i st,
  scanLines i (xs ++ ys) st =
  match scanLines i xs st with
  | Some st' => scanLines (i + length xs) ys st'
  | None => None
  end.
Proof.
  induction xs as [|x xs IH]; intros ys i st; simpl.
  - f_equal. lia.
  - replace (i + S (length xs))%nat with (S i + length xs)%nat by lia.
    destruct (amount x); [apply IH|].
    destruct (truthyStr (account x)); simpl; [|apply IH].
    destruct (missingIndex st); [reflexivity|apply IH].
Qed.

Lemma scanLines_no_missing xs : forall i st,
  missingCount xs = 0%nat ->
  scanLines i xs st =
  Some (mkScan (commentLines st ++ commentIndices i xs) (missingIndex st)).
Proof.
  induction xs as [|x xs IH]; intros i st; simpl.
  - intros _. rewrite app_nil_r. destruct st; reflexivity.
  - rewrite missingCount_cons. unfold isMissing, isComment.
    destruct (amount x) as [a|]; simpl.
    + intros H. apply IH. lia.
    + destruct (truthyStr (account x)); simpl; [lia|].
      intros H. rewrite IH by lia. simpl. rewrite <- app_assoc. reflexivity.
Qed.

Lemma alter_snoc {A} (f : A -> A) (init : list A) (l : A) :
  alter f (length init) (init ++ [l]) = init ++ [f l].
Proof. induction init as [|x init IH]; simpl; [reflexivity|]. f_equal. exact IH. Qed.

Lemma alter_middle {A} (f : A -> A) (pre post : list A) (x : A) :
  alter f (length pre) (pre ++ x :: post) = pre ++ f x :: post.
Proof. induction pre as [|y pre IH]; simpl; [reflexivity|]. f_equal. exact IH. Qed.

Lemma isMissing_amount l : isMissing l = true -> amount l = None.
Proof. unfold isMissing. destruct (amount l); [discriminate|reflexivity]. Qed.

(** The last line is the missing one. *)
Lemma fillMissingAmount_snoc_missing
    (d p : string) (init : list ExpenseLine) (l : ExpenseLine) :
  isMissing l = true ->
  missingCount init = 0%nat ->
  fillMissingAmount (mkTx d p (init ++ [l]))
    = Returns (ok, mkTx d p (init ++ [setAmount l (-1 * sumLoop init)])).
Proof.
  intros Hl Hinit.
  unfold fillMissingAmount. cbn [expenselines].
  rewrite scanLines_app, (scanLines_no_missing init) by exact Hinit.
  pose proof (isMissing_amount _ Hl) as Ha.
  unfold isMissing in Hl. rewrite Ha in Hl.
  cbn [scanLines commentLines missingIndex]. rewrite Ha, Hl.
  cbn [negb missingIndex commentLines].
  rewrite getTotalAsNum_snoc, Ha. cbn [truthyNum js_bind].
  rewrite length_app. cbn [length].
  replace (0 + length init + 1 =? length init + 1)%nat with true
    by (symmetry; apply Nat.eqb_eq; lia).
  unfold writeAmount. cbn [date payee expenselines plus].
  rewrite alter_snoc. reflexivity.
Qed.




(** ** The total of a transaction *)

(** What [getTotalAsNum] returns, by the amount of the last line. *)
Lemma getTotalAsNum_cases (d p : string) (init : list ExpenseLine) (l : ExpenseLine) :
  getTotalAsNum (mkTx d p (init ++ [l])) =
  match amount l with
  | Some a => if a =? 0 then Returns (sumLoop init) else Returns (-1 * a)
  | None => Returns (sumLoop init)
  end.
Proof.
  rewrite getTotalAsNum_snoc. unfold amountOr0.
  destruct (amount l) as [a|]; simpl; [|reflexivity].
  destruct (a =? 0); reflexivity.
Qed.

(** C3: on [zeroLastTx] the last line has the known amount [0], and
    [getTotalAsNum] returns [30], the sum of the other lines, not the
    negation of that amount: the test [if (lines[...].amount)] takes a
    present amount of zero for an absent one. *)
Theorem getTotalAsNum_zero_last :
  (exists l, last (expenselines zeroLastTx) = Some l /\ amount l = Some 0)
  /\ getTotalAsNum zeroLastTx = Returns 30
  /\ getTotalAsNum zeroLastTx <> Returns (-1 * 0).
Proof.
  split; [|split].
  - eexists. split; reflexivity.
  - reflexivity.
  - discriminate.
Qed.

(** C1: on [zeroLastTx], where exactly one non-comment line lacks its
    amount, [fillMissingAmount] succeeds and writes [0]; afterwards the
    negated amount of the last line is [0] and the sum of the other lines
    is [30]: the two totals differ. *)
Theorem fillMissingAmount_zero_last_disagree :
  missingCount (expenselines zeroLastTx) = 1%nat
  /\ exists tx',
      fillMissingAmount zeroLastTx = Returns (ok, tx')
      /\ expenselines tx' =
           [line "Expenses:Food" (Some 30); line "Assets:Cash" (Some 0);
            line "Equity:Adjust" (Some 0)]
      /\ negatedLast (expenselines tx') = Some 0
      /\ sumOfNonLast (expenselines tx') = 30.
Proof.
  split; [reflexivity|].
  eexists. split; [reflexivity|]. repeat split.
Qed.

(** The summation branch is also taken when the last line is a comment
    line: on [trailingCommentTx] the fill writes [0] where the balancing
    amount is [-30]. *)
Lemma fillMissingAmount_trailing_comment :
  missingCount (expenselines trailingCommentTx) = 1%nat
  /\ fillMissingAmount trailingCommentTx =
     Returns (ok, mkTx "2021-05-07" "Shop"
                    [line "Expenses:Food" (Some 30); line "Assets:Cash" (Some 0);
                     line EmptyString None]).
Proof. split; reflexivity. Qed.

(** ** The non-last branch of [fillMissingAmount] *)

Lemma commentIndices_lookup xs : forall i k,
  In k (commentIndices i xs) ->
  exists l, (i <= k)%nat /\ xs !! (k - i)%nat = Some l /\ isComment l = true.
Proof.
  induction xs as [|x xs IH]; intros i k; simpl; [intros []|].
  destruct (isComment x) eqn:Hx.
  - intros [<-|Hin].
    + exists x. rewrite Nat.sub_diag. auto.
    + destruct (IH _ _ Hin) as (l & Hle & Hl & Hc). exists l.
      replace (k - i)%nat with (S (k - S i)) by lia. split; [lia|auto].
  - intros Hin. destruct (IH _ _ Hin) as (l & Hle & Hl & Hc). exists l.
    replace (k - i)%nat with (S (k - S i)) by lia. split; [lia|auto].
Qed.

Lemma scanLines_comments xs : forall i st st',
  scanLines i xs st = Some st' ->
  commentLines st' = commentLines st ++ commentIndices i xs.
Proof.
  induction xs as [|x xs IH]; intros i st st'; simpl.
  - intros [= <-]. rewrite app_nil_r. reflexivity.
  - unfold isComment. destruct (amount x) as [a|]; [apply IH|].
    destruct (truthyStr (account x)); simpl.
    + destruct (missingIndex st); [discriminate|].
      intros H. apply IH in H. exact H.
    + intros H. apply IH in H. simpl in H. rewrite <- app_assoc in H. exact H.
Qed.

Lemma scanLines_keeps xs : forall i st st' k,
  scanLines i xs st = Some st' ->
  missingIndex st = Some k ->
  missingIndex st' = Some k.
Proof.
  induction xs as [|x xs IH]; intros i st st' k; simpl.
  - intros [= <-]. auto.
  - destruct (amount x) as [a|]; [apply IH|].
    destruct (truthyStr (account x)); simpl.
    + intros H Hk. rewrite Hk in H. discriminate.
    + intros H Hk. apply IH with (k := k) in H; auto.
Qed.

Lemma scanLines_undefined_from xs : forall i st st' j l,
  scanLines i xs st = Some st' ->
  xs !! j = Some l ->
  amount l = None ->
  missingIndex st' = Some (i + j)%nat \/ In (i + j)%nat (commentIndices i xs).
Proof.
  induction xs as [|x xs IH]; intros i st st' j l; simpl.
  - intros _ Hj. rewrite lookup_nil in Hj. discriminate.
  - intros Hscan Hj Ha. destruct j as [|j]; simpl in Hj.
    + injection Hj as ->. unfold isComment. rewrite Ha in *.
      rewrite Nat.add_0_r.
      destruct (truthyStr (account l)); simpl in *.
      * destruct (missingIndex st); [discriminate|].
        left. eapply scanLines_keeps in Hscan; [exact Hscan|reflexivity].
      * right. left. reflexivity.
    + assert (exists st1, scanLines (S i) xs st1 = Some st') as [st1 H1].
      { destruct (amount x); [eauto|].
        destruct (truthyStr (account x)); simpl in Hscan; [|eauto].
        destruct (missingIndex st); [discriminate|eauto]. }
      destruct (IH _ _ _ _ _ H1 Hj Ha) as [Hm|Hin].
      * left. rewrite Hm. f_equal. lia.
      * right. replace (i + S j)%nat with (S i + j)%nat by lia.
        destruct (isComment x); [right|]; exact Hin.
Qed.

(** After a successful scan, an amount that is [undefined] sits on the
    missing line or on a comment line: the callback of [reduce] never
    subtracts [undefined]. *)
Lemma scanLines_undefined lines st k l :
  scanLines 0 lines (mkScan [] None) = Some st ->
  lines !! k = Some l ->
  amount l = None ->
  missingIndex st = Some k \/ In k (commentLines st).
Proof.
  intros Hscan Hk Ha.
  rewrite (scanLines_comments _ _ _ _ Hscan). simpl.
  exact (scanLines_undefined_from _ _ _ _ _ _ Hscan Hk Ha).
Qed.

Lemma isComment_amountOr0 l : isComment l = true -> amountOr0 l = 0.
Proof. unfold isComment, amountOr0. destruct (amount l); [discriminate|reflexivity]. Qed.

Lemma sumAbsKept_nonneg (m n : nat) xs : forall i, 0 <= sumAbsKept m n i xs.
Proof.
  induction xs as [|x xs IH]; intros i; simpl; [lia|].
  specialize (IH (S i)). destruct (skipped m n i); lia.
Qed.

(** Within [maxExact] the callback of [reduce] subtracts exactly. *)
Lemma reduceFrom_suffix (lines : list ExpenseLine) (m n : nat) : forall xs ys prev,
  lines = ys ++ xs ->
  Z.abs prev + sumAbsKept m n (length ys) xs <= maxExact ->
  reduceFrom m n (commentIndices 0 lines) (length ys) xs prev
  = prev - sumKept m n (length ys) xs.
Proof.
  induction xs as [|x xs IH]; intros ys prev Hl Hb; simpl; [lia|].
  simpl in Hb. pose proof (sumAbsKept_nonneg m n xs (S (length ys))) as Hnn.
  assert (reduceStep m n (commentIndices 0 lines) prev (length ys) x
          = prev - (if skipped m n (length ys) then 0 else amountOr0 x)) as ->.
  { unfold reduceStep. fold (skipped m n (length ys)).
    destruct (skipped m n (length ys)); simpl; [lia|].
    destruct (existsb (Nat.eqb (length ys)) (commentIndices 0 lines)) eqn:Hex.
    - apply existsb_exists in Hex as (k & Hin & Hk).
      apply Nat.eqb_eq in Hk. subst k.
      apply commentIndices_lookup in Hin as (l & _ & Hlk & Hc).
      rewrite Nat.sub_0_r, Hl, list_lookup_middle in Hlk by reflexivity.
      injection Hlk as <-. rewrite (isComment_amountOr0 _ Hc). lia.
    - unfold amountOr0 in *. destruct (amount x); [|lia].
      apply subNum_exact. lia. }
  specialize (IH (ys ++ [x])). rewrite length_app in IH. simpl in IH.
  rewrite Nat.add_1_r in IH. rewrite IH.
  - lia.
  - rewrite <- app_assoc. exact Hl.
  - destruct (skipped m n (length ys)); lia.
Qed.

Lemma sumKept_regular (m n : nat) xs : forall i,
  (forall j, (j < length xs)%nat -> (i + j)%nat <> m /\ (i + j + 1)%nat <> n) ->
  sumKept m n i xs = sumAmounts xs /\ sumAbsKept m n i xs = sumAbs xs.
Proof.
  induction xs as [|x xs IH]; intros i H; simpl; [split; reflexivity|].
  destruct (IH (S i)) as [-> ->].
  - intros j Hj. destruct (H (S j)) as [H1 H2]; [simpl; lia|]. lia.
  - destruct (H 0%nat) as [H1 H2]; [simpl; lia|].
    unfold skipped.
    destruct (Nat.eqb_spec i m); [lia|]. destruct (Nat.eqb_spec (i + 1) n); [lia|].
    split; reflexivity.
Qed.

Lemma sumKept_app (m n : nat) xs : forall ys i,
  sumKept m n i (xs ++ ys) = sumKept m n i xs + sumKept m n (i + length xs) ys
  /\ sumAbsKept m n i (xs ++ ys)
     = sumAbsKept m n i xs + sumAbsKept m n (i + length xs) ys.
Proof.
  induction xs as [|x xs IH]; intros ys i; simpl.
  - rewrite Nat.add_0_r. split; lia.
  - destruct (IH ys (S i)) as [-> ->].
    replace (S i + length xs)%nat with (i + S (length xs))%nat by lia.
    split; lia.
Qed.

(** What the callback keeps of the lines [pre ++ m :: mid ++ [l]], the
    line [m] being the missing one. *)
Lemma sumKept_lines (pre mid : list ExpenseLine) (m l : ExpenseLine) :
  let lines := pre ++ m :: mid ++ [l] in
  sumKept (length pre) (length lines) 0 lines = sumAmounts pre + sumAmounts mid
  /\ sumAbsKept (length pre) (length lines) 0 lines = sumAbs pre + sumAbs mid.
Proof.
  intros lines.
  assert (length lines = (length pre + S (length mid + 1))%nat) as Hlen.
  { unfold lines. rewrite length_app. simpl. rewrite length_app. reflexivity. }
  unfold lines at 2 4.
  destruct (sumKept_app (length pre) (length lines) pre (m :: mid ++ [l]) 0)
    as [-> ->].
  cbn [sumKept sumAbsKept plus].
  destruct (sumKept_app (length pre) (length lines) mid [l] (S (length pre)))
    as [-> ->].
  cbn [sumKept sumAbsKept]. unfold skipped. rewrite Nat.eqb_refl. cbn [orb].
  replace (S (length pre) + length mid + 1 =? length lines)%nat with true
    by (symmetry; apply Nat.eqb_eq; lia).
  rewrite orb_true_r.
  destruct (sumKept_regular (length pre) (length lines) pre 0) as [-> ->];
    [intros; lia|].
  destruct (sumKept_regular (length pre) (length lines) mid (S (length pre)))
    as [-> ->]; [intros; lia|].
  split; lia.
Qed.

(** What [fillMissingAmount] does when the missing line is not the last:
    it writes [filledValue] on it. *)
Lemma fillMissingAmount_inner_missing
    (d p : string) (pre mid : list ExpenseLine) (m l : ExpenseLine) :
  isMissing m = true ->
  missingCount pre = 0%nat ->
  missingCount mid = 0%nat ->
  isMissing l = false ->
  fillMissingAmount (mkTx d p (pre ++ m :: mid ++ [l]))
  = Returns (ok, mkTx d p
      (pre ++ setAmount m (filledValue pre mid m l) :: mid ++ [l])).
Proof.
  intros Hm Hpre Hmid Hl. unfold filledValue. cbn zeta.
  set (lines := pre ++ m :: mid ++ [l]).
  assert (missingCount (mid ++ [l]) = 0%nat) as Hrest.
  { rewrite missingCount_app, Hmid. unfold missingCount. simpl. rewrite Hl.
    reflexivity. }
  pose proof (isMissing_amount _ Hm) as Ha.
  assert (exists st, scanLines 0 lines (mkScan [] None) = Some st
                     /\ missingIndex st = Some (length pre)) as (st & Hscan & Hidx).
  { unfold lines. rewrite scanLines_app, (scanLines_no_missing pre) by exact Hpre.
    cbn [scanLines missingIndex commentLines]. rewrite Ha.
    unfold isMissing in Hm. rewrite Ha in Hm. rewrite Hm. cbn [negb].
    rewrite (scanLines_no_missing (mid ++ [l])) by exact Hrest.
    eexists. split; reflexivity. }
  unfold fillMissingAmount. cbn [expenselines]. fold lines.
  rewrite Hscan, Hidx.
  assert (getTotalAsNum (mkTx d p lines)
          = Returns (if truthyNum (amount l) then -1 * amountOr0 l
                     else sumLoop (pre ++ m :: mid))) as ->.
  { unfold lines. change (pre ++ m :: mid ++ [l]) with (pre ++ (m :: mid) ++ [l]).
    rewrite app_assoc. apply getTotalAsNum_snoc. }
  cbn [js_bind].
  assert (length lines = (length pre + S (length mid + 1))%nat) as Hlen.
  { unfold lines. rewrite length_app. simpl. rewrite length_app. reflexivity. }
  destruct (Nat.eqb_spec (length pre + 1) (length lines)) as [Heq|_]; [lia|].
  rewrite (scanLines_comments _ _ _ _ Hscan). cbn [commentLines app].
  unfold writeAmount. cbn [date payee expenselines].
  generalize (reduceFrom (length pre) (length lines)
                (commentIndices 0 lines) 0 lines
                (if truthyNum (amount l) then -1 * amountOr0 l
                 else sumLoop (pre ++ m :: mid))).
  intros v. unfold lines. rewrite alter_middle. reflexivity.
Qed.

(** With a last amount other than zero, and within [maxExact], the
    amount written is the negated last amount less the other amounts. *)
Lemma filledValue_exact (pre mid : list ExpenseLine) (m l : ExpenseLine) :
  truthyNum (amount l) = true ->
  sumAbs (pre ++ m :: mid ++ [l]) <= maxExact ->
  filledValue pre mid m l = -1 * amountOr0 l - sumAmounts pre - sumAmounts mid.
Proof.
  intros Hl Hb. unfold filledValue. cbn zeta. rewrite Hl.
  destruct (sumKept_lines pre mid m l) as [Hk Hak]. cbn zeta in Hk, Hak.
  rewrite (reduceFrom_suffix (pre ++ m :: mid ++ [l]) (length pre)
             (length (pre ++ m :: mid ++ [l])) (pre ++ m :: mid ++ [l]) []
             _ eq_refl).
  - cbn [length]. rewrite Hk. lia.
  - cbn [length]. rewrite Hak.
    rewrite sumAbs_app in Hb. simpl in Hb. rewrite sumAbs_app in Hb. simpl in Hb.
    pose proof (Z.abs_nonneg (amountOr0 m)). lia.
Qed.

(** ** Agreement of the two totals after the fill *)

Lemma missingCount_one_split lines :
  missingCount lines = 1%nat ->
  exists pre m post,
    lines = pre ++ m :: post /\ isMissing m = true
    /\ missingCount pre = 0%nat /\ missingCount post = 0%nat.
Proof.
  induction lines as [|x xs IH]; [discriminate|].
  rewrite missingCount_cons. destruct (isMissing x) eqn:Hx; intros H.
  - exists [], x, xs. repeat split; auto; lia.
  - destruct IH as (pre & m & post & -> & Hm & Hpre & Hpost); [lia|].
    exists (x :: pre), m, post. repeat split; auto.
    rewrite missingCount_cons, Hx. exact Hpre.
Qed.

Lemma amountOr0_setAmount l v : amountOr0 (setAmount l v) = v.
Proof. reflexivity. Qed.

Lemma negatedLast_snoc init l :
  negatedLast (init ++ [l]) =
  match amount l with Some a => Some (-1 * a) | None => None end.
Proof. unfold negatedLast. rewrite last_snoc. reflexivity. Qed.

(** Where the last line is the missing one, or carries an amount other
    than zero, and the magnitudes of the amounts sum to [maxExact] at
    most, the fill succeeds and the two totals agree afterwards. *)
Lemma fillMissingAmount_totals_agree (tx : Transaction) (l : ExpenseLine) :
  missingCount (expenselines tx) = 1%nat ->
  last (expenselines tx) = Some l ->
  isMissing l = true \/ truthyNum (amount l) = true ->
  sumAbs (expenselines tx) <= maxExact ->
  exists tx',
    fillMissingAmount tx = Returns (ok, tx')
    /\ negatedLast (expenselines tx') = Some (sumOfNonLast (expenselines tx')).
Proof.
  destruct tx as [d p lines]. cbn [expenselines]. intros Hone Hlast Hl Hb.
  destruct (missingCount_one_split _ Hone) as (pre & m & post & -> & Hm & Hpre & Hpost).
  destruct post as [|y post] using rev_ind.
  - (* the missing line is the last *)
    rewrite last_snoc in Hlast. injection Hlast as <-.
    rewrite fillMissingAmount_snoc_missing by assumption.
    eexists. split; [reflexivity|]. cbn [expenselines].
    rewrite negatedLast_snoc, sumOfNonLast_snoc. simpl. f_equal. lia.
  - clear IHpost.
    change (pre ++ m :: post ++ [y]) with (pre ++ [m] ++ post ++ [y]) in Hlast.
    rewrite !app_assoc, last_snoc in Hlast. injection Hlast as ->.
    rewrite missingCount_app in Hpost.
    assert (isMissing l = false) as Hnl.
    { unfold missingCount in Hpost at 2. simpl in Hpost.
      destruct (isMissing l); [simpl in Hpost; lia|reflexivity]. }
    rewrite Hnl in Hl. destruct Hl as [Hl|Hl]; [discriminate|].
    rewrite fillMissingAmount_inner_missing by (assumption || lia).
    rewrite (filledValue_exact pre post m l Hl Hb).
    eexists. split; [reflexivity|]. cbn [expenselines].
    match goal with |- negatedLast (pre ++ ?m' :: post ++ [l]) = _ =>
      change (pre ++ m' :: post ++ [l]) with (pre ++ (m' :: post) ++ [l]) end.
    rewrite app_assoc, negatedLast_snoc, sumOfNonLast_snoc.
    rewrite sumAbs_app in Hb. simpl in Hb. rewrite sumAbs_app in Hb. simpl in Hb.
    pose proof (Z.abs_nonneg (amountOr0 m)).
    pose proof (sumAbs_nonneg pre). pose proof (sumAbs_nonneg post).
    pose proof (sumAmounts_bound pre). pose proof (sumAmounts_bound post).
    unfold sumLoop. rewrite foldl_app. cbn [foldl].
    fold (sumLoop pre). rewrite sumLoop_exact by lia.
    unfold amountOr0 in *. destruct (amount l) as [a|] eqn:Hal; [|discriminate].
    rewrite addTruthy_exact by (rewrite amountOr0_setAmount; lia).
    rewrite amountOr0_setAmount.
    rewrite foldl_addTruthy_exact_back by lia. f_equal. lia.
Qed.

(** ** The values attributed to the accounts of a transaction *)





Lemma valueFrom_skip tx acct pre : forall i rest,
  (forall x, In x pre -> lineMatches x acct = false) ->
  valueFrom tx i (pre ++ rest) acct = valueFrom tx (i + length pre) rest acct.
Proof.
  induction pre as [|x pre IH]; intros i rest H; simpl.
  - f_equal. lia.
  - rewrite (H x) by (left; reflexivity).
    rewrite IH by (intros y Hy; apply H; right; exact Hy).
    f_equal. lia.
Qed.




(** Beyond [maxExact] the value of a line need not be its amount: on
    [roundedZeroTx], whose amounts sum to zero, the loop of
    [getTotalAsNum] rounds 2^53 + 1 to 2^53 and the last line, whose
    amount is [0], has the value [1]. *)
Lemma valueForAccount_rounded :
  resolved roundedZeroTx /\ balanced roundedZeroTx
  /\ valueForAccount roundedZeroTx "Assets:E" = Returns (Some 1).
Proof.
  split; [|split; [reflexivity|vm_compute; reflexivity]].
  intros l Hl _. simpl in Hl.
  destruct Hl as [<-|[<-|[<-|[<-|[<-|[]]]]]]; simpl; eauto.
Qed.




(** ** The filter engine *)

Lemma some_matchedByAny filters tx :
  some filters (fun fn => fn tx) = true <-> matchedByAny filters tx.
Proof.
  unfold some, matchedByAny. rewrite existsb_exists. reflexivity.
Qed.

Lemma filter_Kept (p : Transaction -> bool) (P : Transaction -> Prop) txs :
  (forall tx, p tx = true <-> P tx) -> Kept P txs (List.filter p txs).
Proof.
  intros HP. induction txs as [|tx txs IH]; simpl; [constructor|].
  destruct (p tx) eqn:Hp.
  - apply Kept_keep; [apply HP; exact Hp|exact IH].
  - apply Kept_drop; [|exact IH]. intros H. apply HP in H. congruence.
Qed.

Lemma Kept_sublist P txs res : Kept P txs res -> sublist res txs.
Proof. induction 1; [constructor|by apply sublist_skip|by apply sublist_cons]. Qed.

Lemma Kept_In P txs res : Kept P txs res ->
  forall tx, In tx res <-> In tx txs /\ P tx.
Proof.
  induction 1 as [|x txs res Hx _ IH|x txs res Hx _ IH]; intros tx; simpl.
  - tauto.
  - rewrite IH. split; [intros [->|[? ?]]; auto|tauto].
  - rewrite IH. split; [tauto|]. intros [[->|?] ?]; [contradiction|tauto].
Qed.

(** C6: without filters [filterTransactions] returns the list unchanged;
    with one or more filters it keeps exactly the transactions that at
    least one filter matches, each at its place, so the result is a
    sublist of the input in the original order; with two filters it is
    the union of their matches. *)
Theorem filterTransactions_union (txs : list Transaction) (f : Filter) (fs : list Filter) :
  filterTransactions txs [] = txs
  /\ Kept (matchedByAny (f :: fs)) txs (filterTransactions txs (f :: fs))
  /\ sublist (filterTransactions txs (f :: fs)) txs
  /\ (forall tx, In tx (filterTransactions txs (f :: fs))
                 <-> In tx txs /\ matchedByAny (f :: fs) tx)
  /\ (forall f1 f2, filterTransactions txs [f1; f2]
                    = List.filter (fun tx => f1 tx || f2 tx) txs).
Proof.
  assert (Kept (matchedByAny (f :: fs)) txs (filterTransactions txs (f :: fs))) as HK.
  { unfold filterTransactions. cbn [length Nat.ltb Nat.leb].
    apply filter_Kept. intros tx. apply some_matchedByAny. }
  split; [reflexivity|]. split; [exact HK|].
  split; [exact (Kept_sublist _ _ _ HK)|].
  split; [exact (Kept_In _ _ _ HK)|].
  intros f1 f2. unfold filterTransactions, some. cbn [length Nat.ltb Nat.leb existsb].
  apply List.filter_ext. intros tx. rewrite orb_false_r. reflexivity.
Qed.

(** ** The alias resolver *)

Lemma indexOf_lower c s : -1 <= indexOf c s.
Proof.
  induction s as [|a s IH]; simpl; [lia|].
  destruct (Ascii.eqb a c); [lia|]. destruct (indexOf c s <? 0); lia.
Qed.

Lemma indexOf_noColon s : noColon s <-> indexOf colon s = -1.
Proof.
  unfold noColon. induction s as [|a s IH]; simpl.
  - split; [reflexivity|intros _ []].
  - destruct (Ascii.eqb_spec a colon) as [->|Hne].
    + split; [intros H; exfalso; apply H; left; reflexivity|discriminate].
    + pose proof (indexOf_lower colon s).
      destruct (Z.ltb_spec (indexOf colon s) 0).
      * split; [reflexivity|]. intros _ [Heq|Hin]; [congruence|].
        apply IH; [lia|exact Hin].
      * split; [|lia]. intros Hn. exfalso.
        assert (indexOf colon s = -1); [|lia].
        apply IH. intros Hin. apply Hn. right. exact Hin.
Qed.

Lemma indexOf_prefix p r :
  noColon p -> indexOf colon (p ++ String colon r) = Z.of_nat (String.length p).
Proof.
  unfold noColon. induction p as [|a p IH]; simpl; intros Hn.
  - reflexivity.
  - destruct (Ascii.eqb_spec a colon) as [->|Hne];
      [exfalso; apply Hn; left; reflexivity|].
    rewrite IH by (intros Hin; apply Hn; right; exact Hin).
    destruct (Z.ltb_spec (Z.of_nat (String.length p)) 0); lia.
Qed.

Lemma substringTo_app p r : substringTo (String.length p) (p ++ r) = p.
Proof.
  induction p as [|a p IH]; simpl; [destruct r; reflexivity|].
  rewrite IH. reflexivity.
Qed.

Lemma substringFrom_app p r : substringFrom (String.length p) (p ++ r) = r.
Proof. induction p as [|a p IH]; simpl; [destruct r; reflexivity|exact IH]. Qed.

Lemma dealiasAccount_split p r aliases :
  p <> EmptyString -> noColon p ->
  dealiasAccount (p ++ String colon r) aliases =
  match aliases !! p with
  | Some v => (v ++ String colon r)%string
  | None => (p ++ String colon r)%string
  end.
Proof.
  intros Hp Hn. unfold dealiasAccount. rewrite indexOf_prefix by exact Hn.
  destruct p as [|a p]; [congruence|].
  replace (0 <? Z.of_nat (String.length (String a p))) with true
    by (symmetry; apply Z.ltb_lt; simpl; lia).
  rewrite Nat2Z.id, substringTo_app, substringFrom_app. reflexivity.
Qed.

Lemma dealiasAccount_whole acct aliases :
  noColon acct \/ (exists r, acct = String colon r) ->
  dealiasAccount acct aliases =
  match aliases !! acct with Some v => v | None => acct end.
Proof.
  intros H. unfold dealiasAccount.
  assert (indexOf colon acct <= 0) as Hle.
  { destruct H as [Hn|[r ->]]; [apply indexOf_noColon in Hn; lia|].
    simpl. reflexivity. }
  destruct (Z.ltb_spec 0 (indexOf colon acct)); [lia|reflexivity].
Qed.

(** C7, as amended: a name with a non-empty prefix before its first
    colon has the prefix replaced by its alias, the colon and the
    remainder kept, when the prefix is an alias key, and is returned
    unchanged otherwise; a name without a colon, or with its first colon
    in front, is replaced wholesale when the whole name is an alias key,
    and returned unchanged otherwise.  The three examples hold. *)
Theorem dealiasAccount_cases (aliases : gmap string string) :
  (forall p r v, p <> EmptyString -> noColon p -> aliases !! p = Some v ->
     dealiasAccount (p ++ ":" ++ r) aliases = (v ++ ":" ++ r)%string)
  /\ (forall p r, p <> EmptyString -> noColon p -> aliases !! p = None ->
     dealiasAccount (p ++ ":" ++ r) aliases = (p ++ ":" ++ r)%string)
  /\ (forall acct v, noColon acct \/ (exists r, acct = String colon r) ->
     aliases !! acct = Some v -> dealiasAccount acct aliases = v)
  /\ (forall acct, noColon acct \/ (exists r, acct = String colon r) ->
     aliases !! acct = None -> dealiasAccount acct aliases = acct)
  /\ dealiasAccount "Exp:Food" {["Exp" := "Expenses"]} = "Expenses:Food"
  /\ dealiasAccount "Cash" {["Cash" := "Assets:Cash"]} = "Assets:Cash"
  /\ dealiasAccount "Exp:Food" ∅ = "Exp:Food".
Proof.
  repeat split.
  - intros p r v Hp Hn Hv.
    change (p ++ ":" ++ r)%string with (p ++ String colon r)%string.
    rewrite dealiasAccount_split, Hv by assumption. reflexivity.
  - intros p r Hp Hn Hv.
    change (p ++ ":" ++ r)%string with (p ++ String colon r)%string.
    rewrite dealiasAccount_split, Hv by assumption. reflexivity.
  - intros acct v H Hv. rewrite dealiasAccount_whole, Hv by exact H. reflexivity.
  - intros acct H Hv. rewrite dealiasAccount_whole, Hv by exact H. reflexivity.
Qed.

Lemma noColon_Exp : noColon "Exp".
Proof. intros [H|[H|[H|[]]]]; discriminate. Qed.

Lemma dealiasAccount_cases_witness :
  dealiasAccount ("Exp" ++ ":" ++ "Food:Fruit")
    {["Exp" := "Expenses"; "Food" := "Nourishment"]}
  = "Expenses:Food:Fruit".
Proof.
  apply (proj1 (dealiasAccount_cases
                  {["Exp" := "Expenses"; "Food" := "Nourishment"]})
           "Exp" "Food:Fruit" "Expenses").
  - discriminate.
  - exact noColon_Exp.
  - vm_compute. reflexivity.
Defined.

(** C7, as stated, fails on a name with its first colon in front that is
    itself an alias key: there is a colon and the prefix before it, the
    empty string, is no alias key, so the name should come back
    unchanged; [dealiasAccount] replaces it wholesale. *)
Lemma dealiasAccount_counterexample :
  indexOf colon ":x" = 0
  /\ colonAliases !! substringTo 0 ":x" = None
  /\ dealiasAccount_asStated ":x" colonAliases = ":x"
  /\ dealiasAccount ":x" colonAliases = "Y"
  /\ dealiasAccount ":x" colonAliases <> dealiasAccount_asStated ":x" colonAliases.
Proof.
  repeat split; try (vm_compute; reflexivity).
  vm_compute. discriminate.
Qed.

(** C10: on a name that begins with a colon [dealiasAccount] replaces no
    prefix, whatever the alias map holds for the empty prefix: it returns
    the alias of the whole name, colon included, when the whole name is
    an alias key, and the name unchanged otherwise. *)
Theorem dealiasAccount_leading_colon (rest : string) (aliases : gmap string string) :
  dealiasAccount (String colon rest) aliases =
  match aliases !! String colon rest with
  | Some v => v
  | None => String colon rest
  end.
Proof. apply dealiasAccount_whole. right. exists rest. reflexivity. Qed.

(** ** The account tree *)

Lemma insertAll_example : Tree.insertAll [] examplePaths = Some exampleBuilt.
Proof. vm_compute. reflexivity. Qed.

(** C8: the three paths inserted with [makeAccountTree] and the result
    sorted with [sortAccountTree] give the top level [Assets; Expenses],
    [Expenses] with the single child [Food], and [Food] with the children
    [Groceries; Restaurants], no segment name twice among siblings; this
    for any collation that puts [Assets] before [Expenses] and
    [Groceries] before [Restaurants]. *)
Theorem accountTree_example (localeCompare : string -> string -> Z) :
  localeCompare "Assets" "Expenses" < 0 ->
  localeCompare "Expenses" "Assets" > 0 ->
  localeCompare "Groceries" "Restaurants" < 0 ->
  localeCompare "Restaurants" "Groceries" > 0 ->
  exists built,
    Tree.insertAll [] examplePaths = Some built
    /\ Tree.sortAccountTree localeCompare built = Some exampleSorted
    /\ map Tree.account exampleSorted = ["Assets"; "Expenses"]
    /\ uniqueSiblingsAll exampleSorted = true.
Proof.
  intros HAE HEA HGR HRG. exists exampleBuilt.
  split; [exact insertAll_example|].
  split; [|split; [reflexivity|vm_compute; reflexivity]].
  assert ((localeCompare "Expenses" "Assets" <=? 0) = false) as H1
    by (apply Z.leb_gt; lia).
  assert ((localeCompare "Groceries" "Restaurants" <=? 0) = true) as H2
    by (apply Z.leb_le; lia).
  unfold Tree.sortAccountTree, exampleBuilt, branch, leaf.
  cbn -[Z.leb]. unfold Tree.compareNodes. cbn -[Z.leb]. rewrite H1.
  cbn -[Z.leb]. unfold Tree.compareNodes. cbn -[Z.leb]. rewrite H2.
  reflexivity.
Qed.

Lemma accountTree_example_witness :
  exists built,
    Tree.insertAll [] examplePaths = Some built
    /\ Tree.sortAccountTree codeCompare built = Some exampleSorted
    /\ map Tree.account exampleSorted = ["Assets"; "Expenses"]
    /\ uniqueSiblingsAll exampleSorted = true.
Proof.
  apply (accountTree_example codeCompare); vm_compute; reflexivity.
Defined.

(** ** The tree operations return *)

Lemma split_not_nil c s : Tree.split c s <> [].
Proof.
  destruct s as [|a s]; simpl; [discriminate|].
  destruct (Ascii.eqb a c); [discriminate|].
  destruct (Tree.split c s); discriminate.
Qed.

Lemma split_noColon s : Forall noColon (Tree.split colon s).
Proof.
  induction s as [|a s IH]; simpl.
  - constructor; [intros []|constructor].
  - destruct (Ascii.eqb_spec a colon) as [->|Hne].
    + constructor; [intros []|exact IH].
    + destruct (Tree.split colon s) as [|p ps].
      * constructor; [|constructor]. intros [H|[]]. congruence.
      * inversion IH as [|? ? Hp Hps]; subst. constructor; [|exact Hps].
        intros [H|H]; [congruence|]. apply Hp. exact H.
Qed.

Lemma split_colonfree p : noColon p -> Tree.split colon p = [p].
Proof.
  unfold noColon. induction p as [|a p IH]; simpl; intros Hn; [reflexivity|].
  destruct (Ascii.eqb_spec a colon) as [->|Hne];
    [exfalso; apply Hn; left; reflexivity|].
  rewrite IH by (intros H; apply Hn; right; exact H). reflexivity.
Qed.

Lemma split_prefix p r :
  noColon p -> Tree.split colon (p ++ String colon r) = p :: Tree.split colon r.
Proof.
  unfold noColon. induction p as [|a p IH]; simpl; intros Hn.
  - reflexivity.
  - destruct (Ascii.eqb_spec a colon) as [->|Hne];
      [exfalso; apply Hn; left; reflexivity|].
    rewrite IH by (intros H; apply Hn; right; exact H). reflexivity.
Qed.

(** [join] undoes [split]: the string the recursive call of
    [makeAccountTree] splits has the parts the caller left. *)
Lemma split_join ps :
  ps <> [] -> Forall noColon ps -> Tree.split colon (Tree.join ":" ps) = ps.
Proof.
  induction ps as [|p ps IH]; [congruence|]. intros _ Hall.
  inversion Hall as [|? ? Hp Hps]; subst.
  destruct ps as [|q ps].
  - apply split_colonfree. exact Hp.
  - change (Tree.join ":" (p :: q :: ps))
      with (p ++ String colon (Tree.join ":" (q :: ps)))%string.
    rewrite split_prefix by exact Hp. f_equal. apply IH; [discriminate|exact Hps].
Qed.

Lemma makeAccountTree_fuel_returns fuel : forall nodes newValue parent,
  (length (Tree.split colon newValue) <= fuel)%nat ->
  is_Some (Tree.makeAccountTree_fuel fuel nodes newValue parent).
Proof.
  induction fuel as [|fuel IH]; intros nodes newValue parent Hlen.
  - pose proof (split_not_nil colon newValue).
    destruct (Tree.split colon newValue); [congruence|simpl in Hlen; lia].
  - cbn [Tree.makeAccountTree_fuel].
    pose proof (split_noColon newValue) as Hnc.
    destruct (Tree.split colon newValue) as [|p ps] eqn:Hparts;
      [exfalso; eapply split_not_nil; exact Hparts|].
    cbn [hd tail length].
    match goal with |- context [list_find ?P nodes] =>
      destruct (list_find P nodes) as [[i val]|] end.
    + destruct ps as [|q ps]; [eexists; reflexivity|].
      cbn [length Nat.ltb Nat.leb].
      match goal with |- context [Tree.makeAccountTree_fuel fuel ?r ?v ?q] =>
        destruct (IH r v q) as [rows' ->] end; [|eexists; reflexivity].
      rewrite split_join; [simpl in *; lia|discriminate|].
      inversion Hnc; assumption.
    + destruct ps as [|q ps]; [eexists; reflexivity|].
      cbn [length Nat.ltb Nat.leb].
      match goal with |- context [Tree.makeAccountTree_fuel fuel ?r ?v ?q] =>
        destruct (IH r v q) as [rows' ->] end; [|eexists; reflexivity].
      rewrite split_join; [simpl in *; lia|discriminate|].
      inversion Hnc; assumption.
Qed.

(** [makeAccountTree] returns on every input. *)
Lemma makeAccountTree_returns nodes newValue parent :
  is_Some (Tree.makeAccountTree nodes newValue parent).
Proof. apply makeAccountTree_fuel_returns. reflexivity. Qed.

Lemma sortInsert_Permutation cmp x sorted :
  Permutation (Tree.sortInsert cmp x sorted) (x :: sorted).
Proof.
  induction sorted as [|y sorted IH]; simpl; [reflexivity|].
  destruct (Tree.compareNodes cmp x y <=? 0); [reflexivity|].
  rewrite IH. apply perm_swap.
Qed.

(** Sorting rearranges the nodes of a level and nothing else. *)
Lemma sort_Permutation cmp nodes : Permutation (Tree.sort cmp nodes) nodes.
Proof.
  induction nodes as [|x nodes IH]; simpl; [reflexivity|].
  rewrite sortInsert_Permutation, IH. reflexivity.
Qed.

Lemma depth_le_depthAll x nodes :
  In x nodes -> (Tree.depth x <= Tree.depthAll nodes)%nat.
Proof.
  induction nodes as [|y nodes IH]; [intros []|].
  unfold Tree.depthAll. simpl. intros [->|Hin]; [lia|].
  apply IH in Hin. unfold Tree.depthAll in Hin. lia.
Qed.

Lemma sortAccountTree_fuel_returns cmp fuel : forall nodes,
  (Tree.depthAll nodes < fuel)%nat ->
  is_Some (Tree.sortAccountTree_fuel cmp fuel nodes).
Proof.
  induction fuel as [|fuel IH]; intros nodes Hd; [lia|].
  cbn [Tree.sortAccountTree_fuel]. apply mapM_is_Some_2.
  apply Forall_forall. intros x Hx.
  rewrite (sort_Permutation cmp nodes) in Hx. apply list_elem_of_In in Hx.
  apply depth_le_depthAll in Hx. unfold compose.
  destruct x as [i a [rows|] e]; cbn [Tree.subRows]; [|eexists; reflexivity].
  destruct (IH rows) as [rows' ->]; [|eexists; reflexivity].
  change (Tree.depth (Tree.mkNode i a (Some rows) e))
    with (S (Tree.depthAll rows)) in Hx. lia.
Qed.

(** [sortAccountTree] returns on every input. *)
Lemma sortAccountTree_returns cmp nodes :
  is_Some (Tree.sortAccountTree cmp nodes).
Proof. apply sortAccountTree_fuel_returns. lia. Qed.

(** * Further properties *)

(** ** The balance resolver *)

(** X1: [getTotalAsNum] throws on a transaction without lines, and on no
    other. *)
Theorem getTotalAsNum_throws_iff_no_lines (tx : Transaction) :
  getTotalAsNum tx = Throws <-> expenselines tx = [].
Proof.
  split.
  - intros Ht. destruct (decide (expenselines tx = [])) as [He|Hne]; [exact He|].
    destruct (getTotalAsNum_returns tx Hne) as [total Hr]. congruence.
  - intros He. unfold getTotalAsNum. rewrite He. reflexivity.
Qed.

Lemma fillMissingAmount_none_missing tx :
  missingCount (expenselines tx) = 0%nat -> fillMissingAmount tx = Returns (ok, tx).
Proof.
  intros H. unfold fillMissingAmount.
  rewrite (scanLines_no_missing _ 0 _ H). reflexivity.
Qed.

Lemma fillMissingAmount_many_missing tx :
  (2 <= missingCount (expenselines tx))%nat ->
  fillMissingAmount tx = Returns (err (mkTxError tx multipleMissing), tx).
Proof.
  intros H. unfold fillMissingAmount.
  assert (scanLines 0 (expenselines tx) (mkScan [] None) = None) as ->
    by (apply scanLines_None; unfold pending; simpl; lia).
  reflexivity.
Qed.

(** What [fillMissingAmount] returns, by the number of missing lines. *)
Lemma fillMissingAmount_outcome (d p : string) (lines : list ExpenseLine) :
  (missingCount lines = 0%nat
   /\ fillMissingAmount (mkTx d p lines) = Returns (ok, mkTx d p lines))
  \/ (exists pre m post v,
        lines = pre ++ m :: post /\ isMissing m = true
        /\ missingCount pre = 0%nat /\ missingCount post = 0%nat
        /\ fillMissingAmount (mkTx d p lines)
           = Returns (ok, mkTx d p (pre ++ setAmount m v :: post)))
  \/ ((2 <= missingCount lines)%nat
      /\ fillMissingAmount (mkTx d p lines)
         = Returns (err (mkTxError (mkTx d p lines) multipleMissing),
                    mkTx d p lines)).
Proof.
  destruct (missingCount lines) as [|[|k]] eqn:Hc.
  - left. split; [reflexivity|]. apply fillMissingAmount_none_missing. exact Hc.
  - right. left.
    destruct (missingCount_one_split _ Hc) as (pre & m & post & -> & Hm & Hpre & Hpost).
    destruct post as [|y post] using rev_ind.
    + exists pre, m, [], (-1 * sumLoop pre). repeat split; auto.
      apply fillMissingAmount_snoc_missing; assumption.
    + clear IHpost. rewrite missingCount_app in Hpost.
      assert (isMissing y = false) as Hy.
      { unfold missingCount in Hpost at 2. simpl in Hpost.
        destruct (isMissing y); [simpl in Hpost; lia|reflexivity]. }
      eexists pre, m, (post ++ [y]), _. repeat split; auto.
      * rewrite missingCount_app. exact Hpost.
      * apply fillMissingAmount_inner_missing; (assumption || lia).
  - right. right. split; [lia|].
    apply fillMissingAmount_many_missing. cbn [expenselines]. lia.
Qed.

Lemma missingCount_filled pre m v post :
  missingCount pre = 0%nat -> missingCount post = 0%nat ->
  missingCount (pre ++ setAmount m v :: post) = 0%nat.
Proof.
  intros Hpre Hpost. rewrite missingCount_app, missingCount_cons, Hpre, Hpost.
  reflexivity.
Qed.

(** X2: [fillMissingAmount] returns success and leaves the transaction as it
    was exactly when no non-comment line lacks its amount. *)
Theorem fillMissingAmount_noop_iff_complete (tx : Transaction) :
  fillMissingAmount tx = Returns (ok, tx) <-> missingCount (expenselines tx) = 0%nat.
Proof.
  destruct tx as [d p lines]. cbn [expenselines].
  split; [|apply (fillMissingAmount_none_missing (mkTx d p lines))].
  destruct (fillMissingAmount_outcome d p lines)
    as [[Hc _]|[(pre & m & post & v & -> & Hm & _ & _ & ->)|[_ ->]]].
  - intros _. exact Hc.
  - intros [= H]. apply app_inv_head in H. injection H as H.
    apply isMissing_amount in Hm. rewrite <- H in Hm. discriminate.
  - discriminate.
Qed.

(** After a successful [fillMissingAmount] no non-comment line lacks its
    amount. *)
Theorem fillMissingAmount_ok_complete (tx tx' : Transaction) :
  fillMissingAmount tx = Returns (ok, tx') ->
  missingCount (expenselines tx') = 0%nat.
Proof.
  destruct tx as [d p lines].
  destruct (fillMissingAmount_outcome d p lines)
    as [[Hc ->]|[(pre & m & post & v & -> & Hm & Hpre & Hpost & ->)|[_ ->]]].
  - intros [= <-]. exact Hc.
  - intros [= <-]. apply missingCount_filled; assumption.
  - discriminate.
Qed.

Lemma fillMissingAmount_ok_complete_witness :
  missingCount
    [line "Expenses:Food" (Some 30); line "Expenses:Drink" (Some 15);
     line EmptyString None; line "Assets:Cash" (Some (-45))] = 0%nat.
Proof.
  exact (fillMissingAmount_ok_complete middleMissingTx
           (mkTx "2021-06-07" "Shop"
              [line "Expenses:Food" (Some 30); line "Expenses:Drink" (Some 15);
               line EmptyString None; line "Assets:Cash" (Some (-45))])
           eq_refl).
Defined.

(** X3: a second [fillMissingAmount] on a transaction a first one has filled
    returns success and changes nothing. *)
Theorem fillMissingAmount_idempotent (tx tx' : Transaction) :
  fillMissingAmount tx = Returns (ok, tx') ->
  fillMissingAmount tx' = Returns (ok, tx').
Proof.
  destruct tx as [d p lines].
  destruct (fillMissingAmount_outcome d p lines)
    as [[Hc ->]|[(pre & m & post & v & -> & Hm & Hpre & Hpost & ->)|[_ ->]]].
  - intros [= <-]. apply fillMissingAmount_none_missing. exact Hc.
  - intros [= <-]. apply fillMissingAmount_none_missing.
    apply missingCount_filled; assumption.
  - discriminate.
Qed.

Lemma fillMissingAmount_idempotent_witness :
  fillMissingAmount
    (mkTx "2021-06-07" "Shop"
       [line "Expenses:Food" (Some 30); line "Expenses:Drink" (Some 15);
        line EmptyString None; line "Assets:Cash" (Some (-45))])
  = Returns (ok,
      mkTx "2021-06-07" "Shop"
        [line "Expenses:Food" (Some 30); line "Expenses:Drink" (Some 15);
         line EmptyString None; line "Assets:Cash" (Some (-45))]).
Proof.
  exact (fillMissingAmount_idempotent middleMissingTx _ eq_refl).
Defined.

Lemma Forall2_sameButFilled_refl lines : Forall2 sameButFilled lines lines.
Proof. induction lines; constructor; [left; reflexivity|assumption]. Qed.

(** X4: [fillMissingAmount] touches nothing but the amount of a missing line:
    the date, the payee and every line come back as they were, but for a
    missing line, which may come back with an amount.  An amount that is
    present is never overwritten and a comment line never gets one. *)
Theorem fillMissingAmount_writes_missing_only (tx tx' : Transaction) (r : Result) :
  fillMissingAmount tx = Returns (r, tx') ->
  date tx' = date tx /\ payee tx' = payee tx
  /\ Forall2 sameButFilled (expenselines tx) (expenselines tx').
Proof.
  destruct tx as [d p lines].
  destruct (fillMissingAmount_outcome d p lines)
    as [[Hc ->]|[(pre & m & post & v & -> & Hm & Hpre & Hpost & ->)|[_ ->]]].
  - intros [= <- <-]. repeat split. apply Forall2_sameButFilled_refl.
  - intros [= <- <-]. repeat split. cbn [expenselines].
    apply Forall2_app; [apply Forall2_sameButFilled_refl|].
    constructor; [|apply Forall2_sameButFilled_refl].
    right. split; [exact Hm|]. exists v. reflexivity.
  - intros [= <- <-]. repeat split. apply Forall2_sameButFilled_refl.
Qed.

Lemma fillMissingAmount_writes_missing_only_witness :
  Forall2 sameButFilled
    (expenselines middleMissingTx)
    [line "Expenses:Food" (Some 30); line "Expenses:Drink" (Some 15);
     line EmptyString None; line "Assets:Cash" (Some (-45))].
Proof.
  exact (proj2 (proj2 (fillMissingAmount_writes_missing_only middleMissingTx
           (mkTx "2021-06-07" "Shop"
              [line "Expenses:Food" (Some 30); line "Expenses:Drink" (Some 15);
               line EmptyString None; line "Assets:Cash" (Some (-45))])
           ok eq_refl))).
Defined.

(** X5: where exactly one non-comment line lacks its amount, the last line
    is that line or carries an amount other than zero, and the amounts
    are whole numbers whose magnitudes sum to 2^53 at most,
    [fillMissingAmount] succeeds and leaves a transaction whose amounts
    sum to zero. *)
Theorem fillMissingAmount_balances (tx : Transaction) (l : ExpenseLine) :
  missingCount (expenselines tx) = 1%nat ->
  last (expenselines tx) = Some l ->
  isMissing l = true \/ truthyNum (amount l) = true ->
  withinExact tx ->
  exists tx', fillMissingAmount tx = Returns (ok, tx') /\ balanced tx'.
Proof.
  destruct tx as [d p lines]. unfold withinExact, balanced. cbn [expenselines].
  intros Hone Hlast Hl Hb.
  destruct (missingCount_one_split _ Hone) as (pre & m & post & -> & Hm & Hpre & Hpost).
  destruct post as [|y post] using rev_ind.
  - (* the missing line is the last *)
    rewrite fillMissingAmount_snoc_missing by assumption.
    eexists. split; [reflexivity|]. cbn [expenselines].
    rewrite sumAbs_app in Hb. pose proof (sumAbs_nonneg [m]).
    rewrite sumLoop_exact by lia.
    rewrite sumAmounts_app. simpl. rewrite amountOr0_setAmount. lia.
  - clear IHpost.
    change (pre ++ m :: post ++ [y]) with (pre ++ [m] ++ post ++ [y]) in Hlast.
    rewrite !app_assoc, last_snoc in Hlast. injection Hlast as ->.
    rewrite missingCount_app in Hpost.
    assert (isMissing l = false) as Hnl.
    { unfold missingCount in Hpost at 2. simpl in Hpost.
      destruct (isMissing l); [simpl in Hpost; lia|reflexivity]. }
    rewrite Hnl in Hl. destruct Hl as [Hl|Hl]; [discriminate|].
    rewrite fillMissingAmount_inner_missing by (assumption || lia).
    rewrite (filledValue_exact pre post m l Hl Hb).
    eexists. split; [reflexivity|]. cbn [expenselines].
    rewrite sumAmounts_app. simpl. rewrite sumAmounts_app. simpl.
    rewrite amountOr0_setAmount. lia.
Qed.

Lemma fillMissingAmount_balances_witness :
  exists tx', fillMissingAmount middleMissingTx = Returns (ok, tx') /\ balanced tx'.
Proof.
  apply (fillMissingAmount_balances middleMissingTx (line "Assets:Cash" (Some (-45)))).
  - reflexivity.
  - reflexivity.
  - right. reflexivity.
  - vm_compute. discriminate.
Defined.

(** Beyond [maxExact] the fill need not balance: on [roundedInnerTx] the
    callback of [reduce] rounds -(2^53 + 7) to -(2^53 + 8), and the
    amounts of the filled transaction sum to [-1]. *)
Lemma fillMissingAmount_rounded :
  missingCount (expenselines roundedInnerTx) = 1%nat
  /\ fillMissingAmount roundedInnerTx
     = Returns (ok,
         mkTx "2021-09-13" "Bank"
           [line "Assets:A" (Some 9007199254740994); line "Assets:B" (Some 1);
            line "Assets:C" (Some (-9007199254741000));
            line "Assets:D" (Some 4)])
  /\ sumAmounts
       [line "Assets:A" (Some 9007199254740994); line "Assets:B" (Some 1);
        line "Assets:C" (Some (-9007199254741000));
        line "Assets:D" (Some 4)] = -1.
Proof. repeat split; vm_compute; reflexivity. Qed.

(** X6: on a transaction whose amounts are whole numbers that sum to zero and
    whose magnitudes sum to 2^53 at most, [getTotalAsNum] returns the
    sum of the lines before the last, whatever the last line holds: its
    two branches agree there. *)
Theorem getTotalAsNum_balanced (tx : Transaction) :
  balanced tx ->
  withinExact tx ->
  expenselines tx <> [] ->
  getTotalAsNum tx = Returns (sumOfNonLast (expenselines tx)).
Proof.
  destruct tx as [d p lines]. unfold balanced, withinExact. cbn [expenselines].
  destruct lines as [|l init] using rev_ind; [congruence|]. clear IHinit.
  intros Hbal Hb _. rewrite getTotalAsNum_cases, sumOfNonLast_snoc.
  rewrite sumAmounts_app in Hbal. simpl in Hbal. unfold amountOr0 in Hbal.
  rewrite sumAbs_app in Hb. pose proof (sumAbs_nonneg [l]).
  destruct (amount l) as [a|]; [|reflexivity].
  destruct (a =? 0); [reflexivity|]. f_equal.
  rewrite sumLoop_exact by lia. lia.
Qed.

(** Beyond [maxExact] the two branches need not agree: on a transaction
    whose amounts sum to zero the loop of [getTotalAsNum] rounds. *)
Lemma getTotalAsNum_balanced_rounded :
  let lines :=
    [line "Assets:A" (Some 9007199254740992); line "Assets:B" (Some 1);
     line "Assets:C" (Some 1); line "Assets:D" (Some (-9007199254740994))] in
  sumAmounts lines = 0
  /\ getTotalAsNum (mkTx "2021-09-12" "Bank" lines) = Returns 9007199254740994
  /\ sumOfNonLast lines = 9007199254740992.
Proof. cbn zeta. repeat split; vm_compute; reflexivity. Qed.

Lemma getTotalAsNum_balanced_witness :
  getTotalAsNum groceriesTx = Returns 30.
Proof.
  apply (getTotalAsNum_balanced groceriesTx);
    [reflexivity|vm_compute; discriminate|discriminate].
Defined.

(** ** The account value extractor *)

Lemma valueFrom_returns tx acct rest : forall i,
  expenselines tx <> [] ->
  exists v, valueFrom tx i rest acct = Returns v.
Proof.
  intros i Hne. destruct (getTotalAsNum_returns tx Hne) as [total Ht].
  revert i. induction rest as [|l rest IH]; intros i; simpl; [eauto|].
  destruct (lineMatches l acct); [|apply IH].
  destruct (i + 1 =? length (expenselines tx))%nat; [|eauto].
  rewrite Ht. simpl. eauto.
Qed.

(** X7: [valueForAccount] never throws: [getTotalAsNum] is called only once
    a line has matched, so there is a last line to read. *)
Theorem valueForAccount_returns (tx : Transaction) (acct : string) :
  exists v, valueForAccount tx acct = Returns v.
Proof.
  unfold valueForAccount.
  destruct (decide (expenselines tx = [])) as [He|Hne].
  - rewrite He. simpl. eauto.
  - apply valueFrom_returns. exact Hne.
Qed.

Lemma lineMatches_false l acct :
  account l <> acct -> dealiasedAccount l <> Some acct ->
  lineMatches l acct = false.
Proof.
  intros Ha Hd. unfold lineMatches.
  destruct (String.eqb_spec (account l) acct) as [He|_]; [contradiction|].
  rewrite andb_false_r. simpl.
  destruct (dealiasedAccount l) as [dl|]; [|reflexivity].
  destruct (String.eqb_spec dl acct) as [->|_]; [congruence|].
  apply andb_false_r.
Qed.

(** X8: an account that no line names, neither as its account nor as its
    dealiased account, has the value [0]. *)
Theorem valueForAccount_absent (tx : Transaction) (acct : string) :
  (forall l, In l (expenselines tx) ->
     account l <> acct /\ dealiasedAccount l <> Some acct) ->
  valueForAccount tx acct = Returns (Some 0).
Proof.
  intros H. unfold valueForAccount.
  rewrite <- (app_nil_r (expenselines tx)).
  rewrite valueFrom_skip; [reflexivity|].
  intros x Hx. destruct (H x Hx). apply lineMatches_false; assumption.
Qed.

Lemma valueForAccount_absent_witness :
  valueForAccount groceriesTx "Assets:Bank" = Returns (Some 0).
Proof.
  apply (valueForAccount_absent groceriesTx "Assets:Bank").
  intros l Hl. simpl in Hl.
  destruct Hl as [<-|[<-|[<-|[<-|[]]]]]; split; discriminate.
Defined.

Lemma lineMatches_empty l : lineMatches l EmptyString = false.
Proof.
  unfold lineMatches. destruct (account l) as [|a s]; simpl.
  - destruct (dealiasedAccount l) as [[|b t]|]; reflexivity.
  - destruct (dealiasedAccount l) as [[|b t]|]; reflexivity.
Qed.

(** X9: the empty account name has the value [0] in every transaction: a
    comment line, whose account is empty, never answers for it. *)
Theorem valueForAccount_empty_name (tx : Transaction) :
  valueForAccount tx EmptyString = Returns (Some 0).
Proof.
  unfold valueForAccount.
  rewrite <- (app_nil_r (expenselines tx)).
  rewrite valueFrom_skip; [reflexivity|].
  intros x _. apply lineMatches_empty.
Qed.

(** X10: the first line that answers to an account, when it is not the last
    line, gives its stored amount as it is; for a line whose amount is
    absent the value is [undefined]. *)
Theorem valueForAccount_stored (d p : string) (pre post : list ExpenseLine)
    (l : ExpenseLine) (acct : string) :
  (forall x, In x pre -> account x <> acct /\ dealiasedAccount x <> Some acct) ->
  acct <> EmptyString ->
  account l = acct \/ dealiasedAccount l = Some acct ->
  post <> [] ->
  valueForAccount (mkTx d p (pre ++ l :: post)) acct = Returns (amount l).
Proof.
  intros Hpre Hne Hl Hpost. unfold valueForAccount. cbn [expenselines].
  rewrite valueFrom_skip
    by (intros x Hx; destruct (Hpre x Hx); apply lineMatches_false; assumption).
  cbn [valueFrom expenselines].
  assert (lineMatches l acct = true) as ->.
  { unfold lineMatches. destruct acct as [|c acct]; [congruence|].
    destruct Hl as [->| ->]; simpl.
    - rewrite Ascii.eqb_refl, String.eqb_refl. reflexivity.
    - rewrite Ascii.eqb_refl, String.eqb_refl. apply orb_true_r. }
  rewrite length_app. destruct post as [|y post]; [congruence|]. cbn [length].
  replace (0 + length pre + 1 =? length pre + S (S (length post)))%nat with false
    by (symmetry; apply Nat.eqb_neq; lia).
  reflexivity.
Qed.

Lemma valueForAccount_stored_witness :
  valueForAccount middleMissingTx "Expenses:Drink" = Returns None.
Proof.
  apply (valueForAccount_stored "2021-06-07" "Shop"
           [line "Expenses:Food" (Some 30)]
           [line EmptyString None; line "Assets:Cash" (Some (-45))]
           (line "Expenses:Drink" None) "Expenses:Drink").
  - intros x [<-|[]]. split; discriminate.
  - discriminate.
  - left. reflexivity.
  - discriminate.
Defined.

(** ** The currency of a transaction *)

(** Lines without a non-empty currency are passed over. *)
Lemma getCurrencyFrom_skip pre rest dc :
  (forall x, In x pre -> currency x = None \/ currency x = Some EmptyString) ->
  getCurrencyFrom (pre ++ rest) dc = getCurrencyFrom rest dc.
Proof.
  induction pre as [|x pre IH]; intros H; simpl; [reflexivity|].
  destruct (H x) as [-> | ->]; [left; reflexivity| |];
    simpl; apply IH; intros y Hy; apply H; right; exact Hy.
Qed.

(** X11: [getCurrency] returns the currency of the first line that carries a
    non-empty one, whatever the later lines and the default say; a
    currency that is the empty string is passed over. *)
Theorem getCurrency_first (d p : string) (pre post : list ExpenseLine)
    (l : ExpenseLine) (c dc : string) :
  (forall x, In x pre -> currency x = None \/ currency x = Some EmptyString) ->
  currency l = Some c ->
  c <> EmptyString ->
  getCurrency (mkTx d p (pre ++ l :: post)) dc = c.
Proof.
  intros Hpre Hc Hne. unfold getCurrency. cbn [expenselines].
  rewrite getCurrencyFrom_skip by exact Hpre. simpl. rewrite Hc.
  destruct c; [congruence|reflexivity].
Qed.

Lemma getCurrency_first_witness :
  getCurrency
    (mkTx "2021-07-08" "Bakery"
       [line "Expenses:Bread" (Some 3);
        mkLine "Expenses:Cake" None (Some 4) (Some EmptyString);
        mkLine "Expenses:Tea" None (Some 2) (Some "EUR");
        mkLine "Assets:Cash" None (Some (-9)) (Some "USD")]) "$" = "EUR".
Proof.
  apply (getCurrency_first "2021-07-08" "Bakery"
           [line "Expenses:Bread" (Some 3);
            mkLine "Expenses:Cake" None (Some 4) (Some EmptyString)]
           [mkLine "Assets:Cash" None (Some (-9)) (Some "USD")]
           (mkLine "Expenses:Tea" None (Some 2) (Some "EUR")) "EUR" "$").
  - intros x [<-|[<-|[]]]; [left|right]; reflexivity.
  - reflexivity.
  - discriminate.
Defined.

(** X12: [getCurrency] returns the default when no line carries a non-empty
    currency, so also on a transaction without lines. *)
Theorem getCurrency_default (tx : Transaction) (dc : string) :
  (forall x, In x (expenselines tx) ->
     currency x = None \/ currency x = Some EmptyString) ->
  getCurrency tx dc = dc.
Proof.
  intros H. unfold getCurrency. rewrite <- (app_nil_r (expenselines tx)).
  rewrite getCurrencyFrom_skip by exact H. reflexivity.
Qed.

Lemma getCurrency_default_witness : getCurrency groceriesTx "$" = "$".
Proof.
  apply (getCurrency_default groceriesTx "$").
  intros x Hx. simpl in Hx.
  destruct Hx as [<-|[<-|[<-|[<-|[]]]]]; left; reflexivity.
Defined.

Lemma getCurrencyFrom_nonempty rest dc :
  dc <> EmptyString -> getCurrencyFrom rest dc <> EmptyString.
Proof.
  intros Hdc. induction rest as [|x rest IH]; simpl; [exact Hdc|].
  destruct (currency x) as [[|a c]|]; simpl; [exact IH|discriminate|exact IH].
Qed.

(** With a non-empty default [getCurrency] never returns the empty
    string. *)
Theorem getCurrency_nonempty (tx : Transaction) (dc : string) :
  dc <> EmptyString -> getCurrency tx dc <> EmptyString.
Proof. intros H. apply getCurrencyFrom_nonempty. exact H. Qed.

Lemma getCurrency_nonempty_witness :
  getCurrency (mkTx "2021-07-09" "Kiosk"
                 [mkLine "Expenses:News" None (Some 2) (Some EmptyString);
                  line "Assets:Cash" None]) "$" <> EmptyString.
Proof. apply getCurrency_nonempty. discriminate. Defined.

(** ** The formatter *)

(** X13: [getTotal] throws on a transaction without lines, and on no other,
    whatever the default currency. *)
Theorem getTotal_throws_iff_no_lines (toFixed2 : Z -> string)
    (tx : Transaction) (dc : string) :
  getTotal toFixed2 tx dc = Throws <-> expenselines tx = [].
Proof.
  unfold getTotal. split.
  - intros H. destruct (decide (expenselines tx = [])) as [He|Hne]; [exact He|].
    destruct (getTotalAsNum_returns tx Hne) as [total Ht].
    rewrite Ht in H. discriminate.
  - intros He. unfold getTotalAsNum. rewrite He. reflexivity.
Qed.

Lemma formatLinesFrom_throws toFixed2 sym n rest : forall i,
  formatLinesFrom toFixed2 sym n i rest = Throws
  <-> exists j l, rest !! j = Some l /\ (i + j)%nat <> (n - 1)%nat
                  /\ amount l = None.
Proof.
  induction rest as [|x rest IH]; intros i; simpl.
  - split; [discriminate|]. intros (j & l & Hj & _). rewrite lookup_nil in Hj.
    discriminate.
  - unfold formatLine at 1.
    destruct (Nat.eqb_spec i (n - 1)) as [Hi|Hi]; cbn [negb js_bind].
    + destruct (formatLinesFrom toFixed2 sym n (S i) rest) as [ss|] eqn:Hss.
      * split; [discriminate|]. intros (j & l & Hj & Hn & Ha).
        destruct j as [|j]; [rewrite Nat.add_0_r in Hn; contradiction|].
        simpl in Hj.
        assert (formatLinesFrom toFixed2 sym n (S i) rest = Throws) as Ht.
        { apply IH. exists j, l. repeat split; auto. lia. }
        congruence.
      * split; [|reflexivity]. intros _.
        apply IH in Hss as (j & l & Hj & Hn & Ha).
        exists (S j), l. repeat split; auto. lia.
    + destruct (amount x) as [a|] eqn:Hx; cbn [js_bind].
      * destruct (formatLinesFrom toFixed2 sym n (S i) rest) as [ss|] eqn:Hss.
        -- split; [discriminate|]. intros (j & l & Hj & Hn & Ha).
           destruct j as [|j]; simpl in Hj; [congruence|].
           assert (formatLinesFrom toFixed2 sym n (S i) rest = Throws) as Ht.
           { apply IH. exists j, l. repeat split; auto. lia. }
           congruence.
        -- split; [|reflexivity]. intros _.
           apply IH in Hss as (j & l & Hj & Hn & Ha).
           exists (S j), l. repeat split; auto. lia.
      * split; [|reflexivity]. intros _. exists 0%nat, x.
        repeat split; auto. lia.
Qed.

(** X14: [formatTransaction] throws exactly when a line before the last has
    no amount, as a comment line has; the amount of the last line is
    never read. *)
Theorem formatTransaction_throws_iff (toFixed2 : Z -> string)
    (tx : Transaction) (currencySymbol : string) :
  formatTransaction toFixed2 tx currencySymbol = Throws
  <-> exists i l, expenselines tx !! i = Some l
                  /\ (i + 1 < length (expenselines tx))%nat
                  /\ amount l = None.
Proof.
  unfold formatTransaction.
  destruct (formatLinesFrom toFixed2 currencySymbol
              (length (expenselines tx)) 0 (expenselines tx)) as [ss|] eqn:Hss;
    cbn [js_bind].
  - split; [discriminate|]. intros (i & l & Hi & Hlt & Ha).
    assert (formatLinesFrom toFixed2 currencySymbol
              (length (expenselines tx)) 0 (expenselines tx) = Throws) as Ht.
    { apply formatLinesFrom_throws. exists i, l. repeat split; auto. lia. }
    congruence.
  - split; [|reflexivity]. intros _.
    apply formatLinesFrom_throws in Hss as (i & l & Hi & Hn & Ha).
    exists i, l. repeat split; auto.
    apply lookup_lt_Some in Hi. lia.
Qed.

Lemma formatLinesFrom_app toFixed2 sym n xs : forall ys i,
  formatLinesFrom toFixed2 sym n i (xs ++ ys) =
  (let! a := formatLinesFrom toFixed2 sym n i xs in
   let! b := formatLinesFrom toFixed2 sym n (i + length xs) ys in
   Returns (a ++ b)).
Proof.
  induction xs as [|x xs IH]; intros ys i; simpl.
  - rewrite Nat.add_0_r.
    destruct (formatLinesFrom toFixed2 sym n i ys); reflexivity.
  - destruct (formatLine toFixed2 sym n i x) as [s|]; [|reflexivity].
    cbn [js_bind]. rewrite IH.
    replace (i + S (length xs))%nat with (S i + length xs)%nat by lia.
    destruct (formatLinesFrom toFixed2 sym n (S i) xs) as [a|]; [|reflexivity].
    cbn [js_bind].
    destruct (formatLinesFrom toFixed2 sym n (S i + length xs) ys); reflexivity.
Qed.

(** X15: [formatTransaction] prints of the last line its account only: two
    transactions that differ in the amount, the currency or the dealiased
    account of their last line format alike. *)
Theorem formatTransaction_last_line (toFixed2 : Z -> string) (d p : string)
    (init : list ExpenseLine) (l l' : ExpenseLine) (currencySymbol : string) :
  account l' = account l ->
  formatTransaction toFixed2 (mkTx d p (init ++ [l'])) currencySymbol
  = formatTransaction toFixed2 (mkTx d p (init ++ [l])) currencySymbol.
Proof.
  intros Ha. unfold formatTransaction. cbn [expenselines date payee].
  rewrite !length_app, !formatLinesFrom_app. cbn [length formatLinesFrom].
  unfold formatLine.
  replace (0 + length init =? length init + 1 - 1)%nat with true
    by (symmetry; apply Nat.eqb_eq; lia).
  cbn [negb]. rewrite Ha. reflexivity.
Qed.

Lemma formatTransaction_last_line_witness :
  formatTransaction (fun _ => "0.00") 
    (mkTx "2021-08-09" "Cafe"
       [line "Expenses:Coffee" (Some 4); line "Assets:Cash" (Some (-4))]) "$"
  = formatTransaction (fun _ => "0.00")
      (mkTx "2021-08-09" "Cafe"
         [line "Expenses:Coffee" (Some 4); line "Assets:Cash" None]) "$".
Proof.
  apply (formatTransaction_last_line (fun _ => "0.00") "2021-08-09" "Cafe"
           [line "Expenses:Coffee" (Some 4)]
           (line "Assets:Cash" None) (line "Assets:Cash" (Some (-4))) "$").
  reflexivity.
Defined.

(** ** Composing filters *)

Lemma filter_filter_andb {A} (p q : A -> bool) (xs : list A) :
  List.filter q (List.filter p xs) = List.filter (fun x => p x && q x) xs.
Proof.
  induction xs as [|x xs IH]; simpl; [reflexivity|].
  destruct (p x) eqn:Hp; simpl; [|exact IH].
  destruct (q x); rewrite IH; reflexivity.
Qed.

Lemma filter_sublist_impl {A} (p q : A -> bool) (xs : list A) :
  (forall x, p x = true -> q x = true) ->
  sublist (List.filter p xs) (List.filter q xs).
Proof.
  intros H. induction xs as [|x xs IH]; simpl; [constructor|].
  destruct (p x) eqn:Hp.
  - rewrite (H x Hp). apply sublist_skip. exact IH.
  - destruct (q x); [apply sublist_cons|]; exact IH.
Qed.

(** X16: filtering in sequence is the conjunction the comment of
    [filterTransactions] promises: filtering by one non-empty list of
    filters and then by another keeps exactly the transactions that some
    filter of the first list and some filter of the second match. *)
Theorem filterTransactions_sequence (txs : list Transaction)
    (f g : Filter) (fs gs : list Filter) :
  filterTransactions (filterTransactions txs (f :: fs)) (g :: gs)
  = List.filter (fun tx => some (f :: fs) (fun fn => fn tx)
                           && some (g :: gs) (fun fn => fn tx)) txs.
Proof.
  unfold filterTransactions. cbn [length Nat.ltb Nat.leb].
  apply filter_filter_andb.
Qed.

(** Filtering twice by the same filters is filtering once. *)
Theorem filterTransactions_idempotent (txs : list Transaction)
    (filters : list Filter) :
  filterTransactions (filterTransactions txs filters) filters
  = filterTransactions txs filters.
Proof.
  unfold filterTransactions. destruct filters as [|f fs]; [reflexivity|].
  cbn [length Nat.ltb Nat.leb]. rewrite filter_filter_andb.
  apply List.filter_ext. intros tx. apply andb_diag.
Qed.

(** One more filter in a list that already holds one can only add
    transactions to the result, each kept transaction staying at its
    place. *)
Theorem filterTransactions_more_filters (txs : list Transaction)
    (f g : Filter) (fs : list Filter) :
  sublist (filterTransactions txs (g :: fs)) (filterTransactions txs (f :: g :: fs)).
Proof.
  unfold filterTransactions. cbn [length Nat.ltb Nat.leb].
  apply filter_sublist_impl. intros tx H. unfold some in *.
  cbn [existsb] in *. rewrite H. apply orb_true_r.
Qed.

(** X17: filtering by [filterByPayeeExact] keeps the transactions of that very
    payee and no other. *)
Theorem filterTransactions_by_payee (txs : list Transaction) (name : string)
    (tx : Transaction) :
  In tx (filterTransactions txs [filterByPayeeExact name])
  <-> In tx txs /\ payee tx = name.
Proof.
  unfold filterTransactions, some, filterByPayeeExact.
  cbn [length Nat.ltb Nat.leb existsb].
  rewrite List.filter_In, orb_false_r, String.eqb_eq. reflexivity.
Qed.

(** ** Filtering by account *)

Lemma startsWith_app s p q : startsWith s (p ++ q) = true -> startsWith s p = true.
Proof.
  revert s. induction p as [|b p IH]; intros s; [destruct s; reflexivity|].
  destruct s as [|a s]; [discriminate|]. cbn [append startsWith].
  intros [Hab Hs]%andb_prop.
  apply andb_true_intro. split; [exact Hab|apply IH; exact Hs].
Qed.

Lemma startsWith_refl s : startsWith s s = true.
Proof.
  induction s as [|a s IH]; cbn [startsWith]; [reflexivity|].
  rewrite Ascii.eqb_refl. exact IH.
Qed.

(** The predicate [filterByAccount] puts to a line. *)
Lemma filterByAccount_unfold acct tx :
  filterByAccount acct tx =
  existsb (fun l =>
             (truthyStr (account l) && startsWith (account l) acct)
             || match dealiasedAccount l with
                | Some d => truthyStr d && startsWith d acct
                | None => false
                end) (expenselines tx).
Proof. reflexivity. Qed.

(** X18: a transaction that [filterByAccount] matches for a prefix is matched
    for every shorter prefix of it: the match looks at leading characters
    and knows no segment boundary. *)
Theorem filterByAccount_shorter_prefix (p q : string) (tx : Transaction) :
  filterByAccount (p ++ q) tx = true -> filterByAccount p tx = true.
Proof.
  rewrite !filterByAccount_unfold, !existsb_exists.
  intros (l & Hin & Hl). exists l. split; [exact Hin|].
  apply orb_prop in Hl as [[Ht Hs]%andb_prop|Hd].
  - rewrite Ht, (startsWith_app _ _ _ Hs). reflexivity.
  - destruct (dealiasedAccount l) as [dl|]; [|discriminate].
    apply andb_prop in Hd as [Ht Hs].
    rewrite Ht, (startsWith_app _ _ _ Hs). apply orb_true_r.
Qed.

Lemma filterByAccount_shorter_prefix_witness :
  filterByAccount "Exp" groceriesTx = true.
Proof.
  apply (filterByAccount_shorter_prefix "Exp" "enses:Dr" groceriesTx).
  reflexivity.
Defined.

(** X19: [filterByAccount] matches a transaction for the non-empty account
    name, and for the non-empty dealiased account name, of any of its
    lines. *)
Theorem filterByAccount_own_name (tx : Transaction) (l : ExpenseLine)
    (acct : string) :
  In l (expenselines tx) ->
  acct <> EmptyString ->
  account l = acct \/ dealiasedAccount l = Some acct ->
  filterByAccount acct tx = true.
Proof.
  intros Hin Hne Hl. rewrite filterByAccount_unfold, existsb_exists.
  exists l. split; [exact Hin|].
  destruct acct as [|c acct]; [congruence|].
  destruct Hl as [->| ->]; simpl.
  - rewrite Ascii.eqb_refl, startsWith_refl. reflexivity.
  - rewrite Ascii.eqb_refl, startsWith_refl. apply orb_true_r.
Qed.

Lemma filterByAccount_own_name_witness :
  filterByAccount "Expenses:Food" groceriesTx = true.
Proof.
  apply (filterByAccount_own_name groceriesTx
           (mkLine "Exp:Food" (Some "Expenses:Food") (Some 25) None)
           "Expenses:Food").
  - left. reflexivity.
  - discriminate.
  - right. reflexivity.
Defined.

(** X20: with the empty prefix [filterByAccount] matches exactly the
    transactions that have a line with a non-empty account or a non-empty
    dealiased account: a transaction of comment lines only is not
    matched. *)
Theorem filterByAccount_empty_prefix (tx : Transaction) :
  filterByAccount EmptyString tx = true
  <-> exists l, In l (expenselines tx)
        /\ (account l <> EmptyString
            \/ exists dl, dealiasedAccount l = Some dl /\ dl <> EmptyString).
Proof.
  rewrite filterByAccount_unfold, existsb_exists.
  split; intros (l & Hin & Hl); exists l; (split; [exact Hin|]).
  - apply orb_prop in Hl as [[Ht _]%andb_prop|Hd].
    + left. destruct (account l); [discriminate|discriminate].
    + right. destruct (dealiasedAccount l) as [dl|]; [|discriminate].
      apply andb_prop in Hd as [Ht _]. exists dl. split; [reflexivity|].
      destruct dl; discriminate.
  - destruct Hl as [Ha|(dl & -> & Hd)].
    + destruct (account l) as [|a s]; [congruence|]. reflexivity.
    + destruct dl as [|a s]; [congruence|]. simpl. apply orb_true_r.
Qed.

(** ** Names without an alias *)

Lemma startsWith_substringTo n s : startsWith s (substringTo n s) = true.
Proof.
  revert s. induction n as [|n IH]; intros s; [destruct s; reflexivity|].
  destruct s as [|a s]; [reflexivity|]. cbn [substringTo startsWith].
  rewrite Ascii.eqb_refl. apply IH.
Qed.

(** X21: [dealiasAccount] returns a name unchanged when the alias map holds no
    key the name begins with, the whole name included. *)
Theorem dealiasAccount_no_key (acct : string) (aliases : gmap string string) :
  (forall k, startsWith acct k = true -> aliases !! k = None) ->
  dealiasAccount acct aliases = acct.
Proof.
  intros H. unfold dealiasAccount.
  destruct (0 <? indexOf colon acct).
  - rewrite (H _ (startsWith_substringTo _ acct)). reflexivity.
  - rewrite (H _ (startsWith_refl acct)). reflexivity.
Qed.

Lemma dealiasAccount_no_key_witness :
  dealiasAccount "Exp:Food" {["Food" := "Nourishment"]} = "Exp:Food".
Proof.
  apply (dealiasAccount_no_key "Exp:Food" {["Food" := "Nourishment"]}).
  intros k Hk. apply lookup_singleton_None. intros <-. discriminate.
Defined.

(** With an empty alias map [dealiasAccount] is the identity. *)
Theorem dealiasAccount_empty_map (acct : string) :
  dealiasAccount acct ∅ = acct.
Proof.
  unfold dealiasAccount. rewrite !lookup_empty.
  destruct (0 <? indexOf colon acct); reflexivity.
Qed.

(** ** Insertion into the account tree *)

Lemma makeAccountTree_fuel_parts fuel : forall nodes newValue parent,
  (length (Tree.split colon newValue) <= fuel)%nat ->
  Tree.makeAccountTree_fuel fuel nodes newValue parent
  = Some (insertParts nodes (Tree.split colon newValue) parent).
Proof.
  induction fuel as [|fuel IH]; intros nodes newValue parent Hlen.
  - pose proof (split_not_nil colon newValue).
    destruct (Tree.split colon newValue); [congruence|simpl in Hlen; lia].
  - cbn [Tree.makeAccountTree_fuel].
    pose proof (split_noColon newValue) as Hnc.
    destruct (Tree.split colon newValue) as [|p ps] eqn:Hparts;
      [exfalso; eapply split_not_nil; exact Hparts|].
    cbn [hd tail length insertParts].
    assert (forall rows q qs, ps = q :: qs ->
              Tree.makeAccountTree_fuel fuel rows (Tree.join ":" ps)
                (Some (Tree.qualify parent p))
              = Some (insertParts rows ps (Some (Tree.qualify parent p)))) as Hrec.
    { intros rows q qs Hps. rewrite IH.
      - rewrite split_join; [reflexivity|subst ps; discriminate|].
        inversion Hnc; assumption.
      - rewrite split_join; [simpl in Hlen; lia|subst ps; discriminate|].
        inversion Hnc; assumption. }
    destruct (list_find (fun val => Tree.account val = p) nodes) as [[i val]|];
      (destruct ps as [|q qs]; [reflexivity|]);
      cbn [length Nat.ltb Nat.leb];
      rewrite (Hrec _ q qs eq_refl); reflexivity.
Qed.

(** [makeAccountTree] is the insertion by the parts of the path. *)
Lemma makeAccountTree_parts nodes newValue parent :
  Tree.makeAccountTree nodes newValue parent
  = Some (insertParts nodes (Tree.split colon newValue) parent).
Proof. apply makeAccountTree_fuel_parts. reflexivity. Qed.

Lemma fmap_account_insert (nodes : list Tree.Node) i (dest : Tree.Node) rows :
  nodes !! i = Some dest ->
  map Tree.account (<[i := Tree.setSubRows dest rows]> nodes)
  = map Tree.account nodes.
Proof.
  intros Hi. change (map Tree.account) with (fmap (M:=list) Tree.account).
  rewrite list_fmap_insert. apply list_insert_id.
  rewrite list_lookup_fmap, Hi. destruct dest; reflexivity.
Qed.

Lemma insert_snoc {A} (xs : list A) (x y : A) :
  <[length xs := y]> (xs ++ [x]) = xs ++ [y].
Proof. induction xs as [|z xs IH]; simpl; [reflexivity|]. f_equal. exact IH. Qed.

(** The accounts of the level an insertion works on. *)
Lemma insertParts_accounts nodes p ps parent :
  map Tree.account (insertParts nodes (p :: ps) parent)
  = if decide (elem_of p (map Tree.account nodes))
    then map Tree.account nodes
    else map Tree.account nodes ++ [p].
Proof.
  cbn [insertParts].
  destruct (list_find (fun val => Tree.account val = p) nodes) as [[i val]|] eqn:Hf.
  - apply list_find_Some in Hf as (Hi & Hp & _).
    destruct (decide (elem_of p (map Tree.account nodes))) as [_|Hn].
    + destruct ps; [reflexivity|]. apply fmap_account_insert. exact Hi.
    + exfalso. apply Hn. rewrite <- Hp. apply list_elem_of_In, in_map.
      apply list_elem_of_In. eapply list_elem_of_lookup_2. exact Hi.
  - apply list_find_None in Hf.
    destruct (decide (elem_of p (map Tree.account nodes))) as [Hin|_].
    + exfalso. apply list_elem_of_In, in_map_iff in Hin as (x & Hx & Hin).
      rewrite Forall_forall in Hf. apply (Hf x); [|exact Hx].
      apply list_elem_of_In. exact Hin.
    + destruct ps; [rewrite map_app; reflexivity|].
      rewrite insert_snoc, map_app. reflexivity.
Qed.

Lemma forallb_insert {A} (f : A -> bool) (xs : list A) : forall i x,
  forallb f xs = true -> f x = true -> forallb f (<[i := x]> xs) = true.
Proof.
  induction xs as [|y xs IH]; intros i x Hxs Hx; [reflexivity|].
  simpl in Hxs. apply andb_prop in Hxs as [Hy Hxs].
  destruct i as [|i]; simpl.
  - rewrite Hx. exact Hxs.
  - rewrite Hy. apply IH; assumption.
Qed.

Lemma forallb_lookup {A} (f : A -> bool) (xs : list A) i x :
  forallb f xs = true -> xs !! i = Some x -> f x = true.
Proof.
  intros Hxs Hi. rewrite forallb_forall in Hxs. apply Hxs.
  apply list_elem_of_In. eapply list_elem_of_lookup_2. exact Hi.
Qed.

Lemma uniqueSiblings_setSubRows dest rows :
  uniqueSiblings (Tree.setSubRows dest rows) = uniqueSiblingsAll rows.
Proof. destruct dest. reflexivity. Qed.

Lemma uniqueSiblings_rows dest :
  uniqueSiblings dest = true ->
  uniqueSiblingsAll (match Tree.subRows dest with
                     | Some rows => rows
                     | None => []
                     end) = true.
Proof. destruct dest as [i a [rows|] e]; intros H; [exact H|reflexivity]. Qed.

Lemma insertParts_unique parts : forall nodes parent,
  uniqueSiblingsAll nodes = true ->
  uniqueSiblingsAll (insertParts nodes parts parent) = true.
Proof.
  induction parts as [|p ps IH]; intros nodes parent Hu; [exact Hu|].
  unfold uniqueSiblingsAll in Hu. apply andb_prop in Hu as [Hnd Hall].
  apply bool_decide_eq_true in Hnd.
  unfold uniqueSiblingsAll at 1. apply andb_true_intro. split.
  - apply bool_decide_eq_true. rewrite insertParts_accounts.
    destruct (decide (elem_of p (map Tree.account nodes))) as [_|Hn]; [exact Hnd|].
    apply NoDup_app. split; [exact Hnd|]. split; [|apply NoDup_singleton].
    intros x Hx Hp. apply list_elem_of_singleton in Hp. subst x. contradiction.
  - cbn [insertParts].
    destruct (list_find (fun val => Tree.account val = p) nodes) as [[i val]|] eqn:Hf.
    + destruct ps as [|q qs]; [exact Hall|].
      apply list_find_Some in Hf as (Hi & _ & _).
      apply forallb_insert; [exact Hall|].
      rewrite uniqueSiblings_setSubRows. apply IH.
      apply uniqueSiblings_rows. exact (forallb_lookup _ _ _ _ Hall Hi).
    + destruct ps as [|q qs].
      * rewrite forallb_app, Hall. reflexivity.
      * rewrite insert_snoc, forallb_app, Hall. cbn [forallb].
        rewrite uniqueSiblings_setSubRows, andb_true_r. apply IH. reflexivity.
Qed.

(** X23: an insertion with [makeAccountTree] makes no duplicate siblings: a
    tree in which no two siblings share a name, at any level, is such a
    tree after the insertion. *)
Theorem makeAccountTree_keeps_unique (nodes : list Tree.Node)
    (newValue : string) (parent : option string) :
  uniqueSiblingsAll nodes = true ->
  exists res,
    Tree.makeAccountTree nodes newValue parent = Some res
    /\ uniqueSiblingsAll res = true.
Proof.
  intros Hu. eexists. split; [apply makeAccountTree_parts|].
  apply insertParts_unique. exact Hu.
Qed.

Lemma makeAccountTree_keeps_unique_witness :
  exists res,
    Tree.makeAccountTree exampleBuilt "Expenses:Food:Fruit" None = Some res
    /\ uniqueSiblingsAll res = true.
Proof.
  apply (makeAccountTree_keeps_unique exampleBuilt "Expenses:Food:Fruit" None).
  vm_compute. reflexivity.
Defined.

(** The node an insertion works on: the first of its name in the level,
    at index [i] of [base], the level after a possible push. *)
Lemma insertParts_shape nodes p ps parent :
  exists i old base,
    base !! i = Some old /\ Tree.account old = p
    /\ (forall j y, base !! j = Some y -> (j < i)%nat -> Tree.account y <> p)
    /\ (base = nodes
        \/ (base = nodes ++ [old] /\ i = length nodes
            /\ old = Tree.mkNode (Tree.qualify parent p) p None None
            /\ forall y, In y nodes -> Tree.account y <> p))
    /\ insertParts nodes (p :: ps) parent =
       match ps with
       | [] => base
       | _ :: _ =>
           <[i := Tree.setSubRows old
                    (insertParts (rowsOf old) ps (Some (Tree.qualify parent p)))]>
             base
       end.
Proof.
  cbn [insertParts].
  destruct (list_find (fun val => Tree.account val = p) nodes) as [[i val]|] eqn:Hf.
  - apply list_find_Some in Hf as (Hi & Hp & Hlt).
    exists i, val, nodes.
    split; [exact Hi|]. split; [exact Hp|]. split; [exact Hlt|].
    split; [left; reflexivity|]. destruct ps; reflexivity.
  - apply list_find_None in Hf. rewrite Forall_forall in Hf.
    exists (length nodes), (Tree.mkNode (Tree.qualify parent p) p None None),
      (nodes ++ [Tree.mkNode (Tree.qualify parent p) p None None]).
    split; [apply list_lookup_middle; reflexivity|].
    split; [reflexivity|]. split.
    + intros j y Hj Hji. rewrite lookup_app_l in Hj by exact Hji.
      apply Hf. eapply list_elem_of_lookup_2. exact Hj.
    + split; [|destruct ps; reflexivity].
      right. repeat split. intros y Hy. apply Hf. apply list_elem_of_In. exact Hy.
Qed.

Lemma makeAccountTree_rest rows q qs parent :
  Forall noColon (q :: qs) ->
  Tree.makeAccountTree rows (Tree.join ":" (q :: qs)) parent
  = Some (insertParts rows (q :: qs) parent).
Proof.
  intros Hnc. rewrite makeAccountTree_parts, split_join; [reflexivity| |exact Hnc].
  discriminate.
Qed.

(** X22: an insertion with [makeAccountTree] works on one node of the level
    it is given, the first that is named after the first segment of the
    path, or a new last node of that name, without [subRows], when there
    is none.  Every other node stays at its place as it is.  The node
    worked on stays as it is when the path has one segment; with more
    segments it keeps its [id], [account] and [expanded], and its
    [subRows] become what the insertion of the rest of the path into
    them returns. *)
Theorem makeAccountTree_level (nodes : list Tree.Node) (newValue : string)
    (parent : option string) :
  exists res i old,
    Tree.makeAccountTree nodes newValue parent = Some res
    /\ (nodes !! i = Some old
        \/ (i = length nodes
            /\ old = Tree.mkNode (Tree.qualify parent (firstPart newValue))
                                 (firstPart newValue) None None
            /\ forall y, In y nodes -> Tree.account y <> firstPart newValue))
    /\ Tree.account old = firstPart newValue
    /\ (forall j y, nodes !! j = Some y -> (j < i)%nat ->
          Tree.account y <> firstPart newValue)
    /\ (forall j y, nodes !! j = Some y -> j <> i -> res !! j = Some y)
    /\ length res = Nat.max (length nodes) (S i)
    /\ match restParts newValue with
       | [] => res !! i = Some old
       | _ :: _ =>
           exists rows',
             Tree.makeAccountTree (rowsOf old)
               (Tree.join ":" (restParts newValue))
               (Some (Tree.qualify parent (firstPart newValue))) = Some rows'
             /\ res !! i = Some (Tree.setSubRows old rows')
       end.
Proof.
  unfold firstPart, restParts.
  pose proof (split_not_nil colon newValue) as Hne.
  pose proof (split_noColon newValue) as Hnc.
  rewrite makeAccountTree_parts.
  destruct (Tree.split colon newValue) as [|p ps]; [congruence|]. cbn [hd tail].
  destruct (insertParts_shape nodes p ps parent)
    as (i & old & base & Hi & Hp & Hlt & Hbase & Heq).
  assert (forall j y, nodes !! j = Some y -> base !! j = Some y) as Hnb.
  { intros j y Hj. destruct Hbase as [-> | [-> _]]; [exact Hj|].
    rewrite lookup_app_l by (eapply lookup_lt_Some; exact Hj). exact Hj. }
  assert (length base = Nat.max (length nodes) (S i)) as Hlen.
  { destruct Hbase as [-> | [-> [-> _]]].
    - apply lookup_lt_Some in Hi. lia.
    - rewrite length_app. simpl. lia. }
  exists (insertParts nodes (p :: ps) parent), i, old.
  split; [reflexivity|]. split.
  { destruct Hbase as [-> | (_ & Hil & Hold & Habs)]; [left; exact Hi|].
    right. auto. }
  split; [exact Hp|]. split.
  { intros j y Hj Hji. exact (Hlt j y (Hnb j y Hj) Hji). }
  rewrite Heq. destruct ps as [|q qs].
  - split; [intros j y Hj _; exact (Hnb j y Hj)|]. split; [exact Hlen|exact Hi].
  - split.
    { intros j y Hj Hji. rewrite list_lookup_insert_ne by auto. exact (Hnb j y Hj). }
    split; [rewrite length_insert; exact Hlen|].
    eexists. split.
    + apply makeAccountTree_rest. inversion Hnc; assumption.
    + apply list_lookup_insert_eq. eapply lookup_lt_Some. exact Hi.
Qed.

(** After the insertion the first node of that name is the node worked
    on. *)
Lemma insertParts_find nodes p ps parent :
  exists i dest,
    list_find (fun val => Tree.account val = p) (insertParts nodes (p :: ps) parent)
    = Some (i, dest)
    /\ insertParts nodes (p :: ps) parent !! i = Some dest
    /\ match ps with
       | [] => True
       | _ :: _ =>
           exists old,
             dest = Tree.setSubRows old
                      (insertParts (rowsOf old) ps (Some (Tree.qualify parent p)))
       end.
Proof.
  destruct (insertParts_shape nodes p ps parent)
    as (i & old & base & Hi & Hp & Hlt & _ & ->).
  destruct ps as [|q qs].
  - exists i, old. repeat split; auto. apply list_find_Some. repeat split; auto.
  - eexists i, _. split; [|split; [|exists old; reflexivity]].
    + apply list_find_Some. split; [|split].
      * apply list_lookup_insert_eq. eapply lookup_lt_Some. exact Hi.
      * destruct old; exact Hp.
      * intros j y Hj Hji. rewrite list_lookup_insert_ne in Hj by lia.
        exact (Hlt j y Hj Hji).
    + apply list_lookup_insert_eq. eapply lookup_lt_Some. exact Hi.
Qed.

Lemma insertParts_idempotent parts : forall nodes parent,
  insertParts (insertParts nodes parts parent) parts parent
  = insertParts nodes parts parent.
Proof.
  induction parts as [|p ps IH]; intros nodes parent; [reflexivity|].
  destruct (insertParts_find nodes p ps parent) as (i & dest & Hf & Hi & Hd).
  remember (insertParts nodes (p :: ps) parent) as res eqn:Hres.
  cbn [insertParts]. rewrite Hf.
  destruct ps as [|q qs]; [reflexivity|].
  destruct Hd as (old & ->).
  assert (rowsOf (Tree.setSubRows old
            (insertParts (rowsOf old) (q :: qs) (Some (Tree.qualify parent p))))
          = insertParts (rowsOf old) (q :: qs) (Some (Tree.qualify parent p))) as Hrows
    by (destruct old; reflexivity).
  fold (rowsOf (Tree.setSubRows old
            (insertParts (rowsOf old) (q :: qs) (Some (Tree.qualify parent p))))).
  rewrite Hrows, IH. apply list_insert_id. rewrite Hi. destruct old; reflexivity.
Qed.

(** X24: inserting a path a second time with [makeAccountTree] changes
    nothing: the tree after two insertions of one path is the tree after
    the first. *)
Theorem makeAccountTree_idempotent (nodes : list Tree.Node) (newValue : string)
    (parent : option string) :
  exists res,
    Tree.makeAccountTree nodes newValue parent = Some res
    /\ Tree.makeAccountTree res newValue parent = Some res.
Proof.
  eexists. split; [apply makeAccountTree_parts|].
  rewrite makeAccountTree_parts, insertParts_idempotent. reflexivity.
Qed.

Lemma insertParts_hasPath parts : forall nodes parent,
  hasPath (insertParts nodes parts parent) parts = true.
Proof.
  induction parts as [|p ps IH]; intros nodes parent; [reflexivity|].
  destruct (insertParts_find nodes p ps parent) as (i & dest & Hf & _ & Hd).
  cbn [hasPath]. rewrite Hf. destruct ps as [|q qs]; [reflexivity|].
  destruct Hd as (old & ->). destruct old as [oi oa orows oe]. apply IH.
Qed.

(** X25: a path inserted with [makeAccountTree] is in the tree afterwards: a
    node for each part, each below the node of the part before. *)
Theorem makeAccountTree_hasPath (nodes : list Tree.Node) (newValue : string)
    (parent : option string) :
  exists res,
    Tree.makeAccountTree nodes newValue parent = Some res
    /\ hasPath res (Tree.split colon newValue) = true.
Proof.
  eexists. split; [apply makeAccountTree_parts|]. apply insertParts_hasPath.
Qed.

Lemma insertParts_keeps_paths parts : forall nodes parent qs,
  hasPath nodes qs = true ->
  hasPath (insertParts nodes parts parent) qs = true.
Proof.
  induction parts as [|p ps IH]; intros nodes parent qs H; [exact H|].
  destruct qs as [|q qs]; [reflexivity|].
  cbn [hasPath] in H.
  destruct (list_find (fun v => Tree.account v = q) nodes) as [[k vk]|] eqn:Hq;
    [|discriminate].
  apply list_find_Some in Hq as (Hk & Hvk & Hmin).
  destruct (insertParts_shape nodes p ps parent)
    as (i & old & base & Hi & Hp & Hlt & Hbase & ->).
  assert (base !! k = Some vk) as Hbk.
  { destruct Hbase as [-> | [-> _]]; [exact Hk|].
    rewrite lookup_app_l by (eapply lookup_lt_Some; exact Hk). exact Hk. }
  assert (forall j y, base !! j = Some y -> (j < k)%nat -> Tree.account y <> q) as Hbmin.
  { intros j y Hj Hjk. apply (Hmin j y); [|exact Hjk].
    destruct Hbase as [-> | [-> _]]; [exact Hj|].
    rewrite lookup_app_l in Hj; [exact Hj|].
    apply lookup_lt_Some in Hk. lia. }
  destruct ps as [|p' ps'].
  - (* a single part: the level is the base *)
    cbn [hasPath].
    assert (list_find (fun v => Tree.account v = q) base = Some (k, vk)) as ->
      by (apply list_find_Some; auto).
    exact H.
  - set (dest := Tree.setSubRows old
                   (insertParts (rowsOf old) (p' :: ps')
                      (Some (Tree.qualify parent p)))).
    assert (Tree.account dest = p) as Hdp by (destruct old; exact Hp).
    destruct (decide (q = p)) as [->|Hqp].
    + (* the path goes through the node worked on *)
      assert (i = k) as ->.
      { destruct (Nat.lt_trichotomy i k) as [Hlt'|[Heq|Hgt]]; [|exact Heq|].
        - exfalso. exact (Hbmin i old Hi Hlt' Hp).
        - exfalso. exact (Hlt k vk Hbk Hgt Hvk). }
      assert (old = vk) as -> by congruence.
      cbn [hasPath].
      assert (list_find (fun v => Tree.account v = p) (<[k := dest]> base)
              = Some (k, dest)) as ->.
      { apply list_find_Some. split; [|split; [exact Hdp|]].
        - apply list_lookup_insert_eq. eapply lookup_lt_Some. exact Hbk.
        - intros j y Hj Hjk. rewrite list_lookup_insert_ne in Hj by lia.
          exact (Hbmin j y Hj Hjk). }
      destruct qs as [|q' qs']; [reflexivity|].
      destruct vk as [vi va [rows|] ve]; [|discriminate].
      cbn [Tree.subRows] in H. subst dest. cbn [Tree.setSubRows Tree.subRows].
      apply IH. exact H.
    + (* the path goes through another node of the level *)
      assert (k <> i) as Hki by (intros ->; congruence).
      cbn [hasPath].
      assert (list_find (fun v => Tree.account v = q) (<[i := dest]> base)
              = Some (k, vk)) as ->.
      { apply list_find_Some. split; [|split; [exact Hvk|]].
        - rewrite list_lookup_insert_ne by auto. exact Hbk.
        - intros j y Hj Hjk. destruct (decide (j = i)) as [->|Hji].
          + rewrite list_lookup_insert_eq in Hj
              by (eapply lookup_lt_Some; exact Hi).
            injection Hj as <-. congruence.
          + rewrite list_lookup_insert_ne in Hj by auto.
            exact (Hbmin j y Hj Hjk). }
      exact H.
Qed.

(** X26: an insertion with [makeAccountTree] removes no path: a path the tree
    holds before the insertion it holds afterwards. *)
Theorem makeAccountTree_keeps_paths (nodes : list Tree.Node)
    (newValue : string) (parent : option string) (parts : list string) :
  hasPath nodes parts = true ->
  exists res,
    Tree.makeAccountTree nodes newValue parent = Some res
    /\ hasPath res parts = true.
Proof.
  intros H. eexists. split; [apply makeAccountTree_parts|].
  apply insertParts_keeps_paths. exact H.
Qed.

Lemma makeAccountTree_keeps_paths_witness :
  exists res,
    Tree.makeAccountTree exampleBuilt "Expenses:Rent" None = Some res
    /\ hasPath res ["Expenses"; "Food"; "Groceries"] = true.
Proof.
  apply (makeAccountTree_keeps_paths exampleBuilt "Expenses:Rent" None
           ["Expenses"; "Food"; "Groceries"]).
  vm_compute. reflexivity.
Defined.

Lemma idsQualified_setSubRows parent old rows :
  idsQualified parent old = true ->
  forallb (idsQualified (Some (Tree.id old))) rows = true ->
  idsQualified parent (Tree.setSubRows old rows) = true.
Proof.
  destruct old as [i a r e]. cbn [idsQualified Tree.setSubRows Tree.id Tree.account
                                   Tree.expanded].
  intros [Hi _]%andb_prop Hrows. rewrite Hi, Hrows. reflexivity.
Qed.

Lemma idsQualified_rows parent old :
  idsQualified parent old = true ->
  Tree.id old = Tree.qualify parent (Tree.account old)
  /\ forallb (idsQualified (Some (Tree.id old))) (rowsOf old) = true.
Proof.
  destruct old as [i a [rows|] e]; cbn [idsQualified Tree.id Tree.account];
    intros [Hi Hr]%andb_prop; apply String.eqb_eq in Hi; split; auto.
Qed.

Lemma insertParts_ids parts : forall nodes parent,
  forallb (idsQualified parent) nodes = true ->
  forallb (idsQualified parent) (insertParts nodes parts parent) = true.
Proof.
  induction parts as [|p ps IH]; intros nodes parent Hall; [exact Hall|].
  cbn [insertParts].
  destruct (list_find (fun val => Tree.account val = p) nodes) as [[i val]|] eqn:Hf.
  - destruct ps as [|q qs]; [exact Hall|].
    apply list_find_Some in Hf as (Hi & Hp & _).
    pose proof (forallb_lookup _ _ _ _ Hall Hi) as Hval.
    destruct (idsQualified_rows _ _ Hval) as [Hid Hrows].
    apply forallb_insert; [exact Hall|].
    apply idsQualified_setSubRows; [exact Hval|].
    rewrite Hid, Hp in *. apply IH. exact Hrows.
  - assert (idsQualified parent
              (Tree.mkNode (Tree.qualify parent p) p None None) = true) as Hfresh
      by (cbn [idsQualified]; rewrite String.eqb_refl; reflexivity).
    destruct ps as [|q qs].
    + rewrite forallb_app, Hall. cbn [forallb]. rewrite Hfresh. reflexivity.
    + rewrite insert_snoc, forallb_app, Hall. cbn [forallb].
      rewrite andb_true_r. apply idsQualified_setSubRows; [exact Hfresh|].
      apply IH. reflexivity.
Qed.

(** X27: an insertion with [makeAccountTree] keeps the [id]s in step with the
    paths: in a tree where the [id] of every node is its name qualified
    by the path of its parent, this is so after the insertion, the new
    nodes included. *)
Theorem makeAccountTree_keeps_ids (nodes : list Tree.Node)
    (newValue : string) (parent : option string) :
  forallb (idsQualified parent) nodes = true ->
  exists res,
    Tree.makeAccountTree nodes newValue parent = Some res
    /\ forallb (idsQualified parent) res = true.
Proof.
  intros H. eexists. split; [apply makeAccountTree_parts|].
  apply insertParts_ids. exact H.
Qed.

Lemma makeAccountTree_keeps_ids_witness :
  exists res,
    Tree.makeAccountTree exampleBuilt "Assets:Bank:Savings" None = Some res
    /\ forallb (idsQualified None) res = true.
Proof.
  apply (makeAccountTree_keeps_ids exampleBuilt "Assets:Bank:Savings" None).
  vm_compute. reflexivity.
Defined.

(** ** Sorting the account tree *)

(** What the callback of [forEach] makes of a node of the sorted level. *)
Lemma sortAccountTree_fuel_level cmp fuel nodes res :
  Tree.sortAccountTree_fuel cmp (S fuel) nodes = Some res ->
  Forall2 (fun x y =>
             match Tree.subRows x with
             | Some rows =>
                 exists rows', Tree.sortAccountTree_fuel cmp fuel rows = Some rows'
                               /\ y = Tree.setSubRows x rows'
             | None => y = x
             end) (Tree.sort cmp nodes) res.
Proof.
  cbn [Tree.sortAccountTree_fuel]. intros H. apply mapM_Some_1 in H.
  eapply Forall2_impl; [exact H|]. intros x y Hxy. cbn beta in Hxy.
  destruct (Tree.subRows x) as [rows|]; [|congruence].
  destruct (Tree.sortAccountTree_fuel cmp fuel rows) as [rows'|]; [|discriminate].
  exists rows'. split; [reflexivity|congruence].
Qed.

Lemma sortAccountTree_fuel_fields cmp fuel nodes res :
  Tree.sortAccountTree_fuel cmp (S fuel) nodes = Some res ->
  map Tree.account res = map Tree.account (Tree.sort cmp nodes)
  /\ map Tree.id res = map Tree.id (Tree.sort cmp nodes).
Proof.
  intros H. apply sortAccountTree_fuel_level in H.
  induction H as [|x y xs ys Hxy _ [IHa IHi]]; [split; reflexivity|].
  assert (Tree.account y = Tree.account x /\ Tree.id y = Tree.id x) as [Ha Hi].
  { destruct x as [i a [rows|] e]; cbn [Tree.subRows] in Hxy.
    - destruct Hxy as (rows' & _ & ->). split; reflexivity.
    - subst y. split; reflexivity. }
  simpl. rewrite Ha, Hi, IHa, IHi. split; reflexivity.
Qed.

(** X28: [sortAccountTree] rearranges the nodes of the level it is given and
    drops or adds none: the names and the [id]s of the sorted level are
    those of the level, in some order. *)
Theorem sortAccountTree_permutes (cmp : string -> string -> Z)
    (nodes : list Tree.Node) :
  exists res,
    Tree.sortAccountTree cmp nodes = Some res
    /\ Permutation (map Tree.account res) (map Tree.account nodes)
    /\ Permutation (map Tree.id res) (map Tree.id nodes).
Proof.
  destruct (sortAccountTree_returns cmp nodes) as [res Hres].
  exists res. split; [exact Hres|].
  destruct (sortAccountTree_fuel_fields _ _ _ _ Hres) as [-> ->].
  split; apply Permutation_map, sort_Permutation.
Qed.

Lemma sortInsert_HdRel cmp z x sorted :
  cmp (Tree.account z) (Tree.account x) <= 0 ->
  HdRel (fun a b => cmp a b <= 0) (Tree.account z) (map Tree.account sorted) ->
  HdRel (fun a b => cmp a b <= 0) (Tree.account z)
        (map Tree.account (Tree.sortInsert cmp x sorted)).
Proof.
  intros Hzx Hz. destruct sorted as [|y sorted]; simpl.
  - constructor. exact Hzx.
  - destruct (Tree.compareNodes cmp x y <=? 0); simpl.
    + constructor. exact Hzx.
    + constructor. inversion Hz; assumption.
Qed.

Lemma sortInsert_Sorted cmp x sorted :
  (forall a b, cmp a b <= 0 \/ cmp b a <= 0) ->
  Sorted (fun a b => cmp a b <= 0) (map Tree.account sorted) ->
  Sorted (fun a b => cmp a b <= 0) (map Tree.account (Tree.sortInsert cmp x sorted)).
Proof.
  intros Htot. induction sorted as [|y sorted IH]; intros Hs; simpl.
  - repeat constructor.
  - unfold Tree.compareNodes.
    destruct (Z.leb_spec (cmp (Tree.account x) (Tree.account y)) 0) as [Hle|Hgt]; simpl.
    + constructor; [exact Hs|]. constructor. exact Hle.
    + inversion Hs as [|? ? Hs' Hhd]; subst. constructor; [apply IH; exact Hs'|].
      apply sortInsert_HdRel; [|exact Hhd].
      destruct (Htot (Tree.account x) (Tree.account y)); [lia|assumption].
Qed.

Lemma sort_Sorted cmp nodes :
  (forall a b, cmp a b <= 0 \/ cmp b a <= 0) ->
  sortedLevel cmp (Tree.sort cmp nodes).
Proof.
  intros Htot. unfold sortedLevel.
  induction nodes as [|x nodes IH]; simpl; [constructor|].
  apply sortInsert_Sorted; assumption.
Qed.

Lemma sortedBelow_setSubRows cmp x rows :
  sortedBelow cmp (Tree.setSubRows x rows) <-> sortedTree cmp rows.
Proof. destruct x. reflexivity. Qed.

Lemma sortAccountTree_fuel_sorted cmp :
  (forall a b, cmp a b <= 0 \/ cmp b a <= 0) ->
  forall fuel nodes res,
    Tree.sortAccountTree_fuel cmp fuel nodes = Some res -> sortedTree cmp res.
Proof.
  intros Htot. induction fuel as [|fuel IH]; intros nodes res Hres; [discriminate|].
  split.
  - unfold sortedLevel.
    rewrite (proj1 (sortAccountTree_fuel_fields _ _ _ _ Hres)).
    apply sort_Sorted. exact Htot.
  - apply sortAccountTree_fuel_level in Hres.
    induction Hres as [|x y xs ys Hxy _ IHf]; [exact I|].
    cbn [foldr]. split; [|exact IHf].
    destruct x as [i a [rows|] e]; cbn [Tree.subRows] in Hxy.
    + destruct Hxy as (rows' & Hrows & ->).
      apply sortedBelow_setSubRows. exact (IH _ _ Hrows).
    + subst y. exact I.
Qed.

(** X29: under a collation that compares any two names one way or the other,
    [sortAccountTree] leaves every level of the tree in order. *)
Theorem sortAccountTree_sorted (cmp : string -> string -> Z)
    (nodes : list Tree.Node) :
  (forall a b, cmp a b <= 0 \/ cmp b a <= 0) ->
  exists res,
    Tree.sortAccountTree cmp nodes = Some res /\ sortedTree cmp res.
Proof.
  intros Htot. destruct (sortAccountTree_returns cmp nodes) as [res Hres].
  exists res. split; [exact Hres|].
  exact (sortAccountTree_fuel_sorted cmp Htot _ _ _ Hres).
Qed.

Lemma sortAccountTree_sorted_witness :
  exists res,
    Tree.sortAccountTree lengthCompare exampleBuilt = Some res
    /\ sortedTree lengthCompare res.
Proof.
  apply (sortAccountTree_sorted lengthCompare exampleBuilt).
  intros a b. unfold lengthCompare. lia.
Defined.

Lemma sort_sorted_fixed cmp nodes :
  sortedLevel cmp nodes -> Tree.sort cmp nodes = nodes.
Proof.
  unfold sortedLevel. induction nodes as [|x nodes IH]; intros Hs; [reflexivity|].
  simpl in Hs. inversion Hs as [|? ? Hs' Hhd]; subst.
  cbn [Tree.sort foldr]. fold (Tree.sort cmp nodes). rewrite IH by exact Hs'.
  destruct nodes as [|y nodes]; [reflexivity|].
  simpl in Hhd. inversion Hhd as [|? ? Hxy]; subst.
  cbn [Tree.sortInsert]. unfold Tree.compareNodes.
  destruct (Z.leb_spec (cmp (Tree.account x) (Tree.account y)) 0); [reflexivity|lia].
Qed.

Lemma sortedBelow_all cmp nodes :
  foldr (fun r P => sortedBelow cmp r /\ P) True nodes ->
  Forall (sortedBelow cmp) nodes.
Proof.
  induction nodes as [|x nodes IH]; [constructor|].
  intros [Hx Hrest]. constructor; [exact Hx|apply IH; exact Hrest].
Qed.

Lemma sortAccountTree_fuel_fixed cmp : forall fuel nodes,
  (Tree.depthAll nodes < fuel)%nat ->
  sortedTree cmp nodes ->
  Tree.sortAccountTree_fuel cmp fuel nodes = Some nodes.
Proof.
  induction fuel as [|fuel IH]; intros nodes Hd [Hlev Hbelow]; [lia|].
  cbn [Tree.sortAccountTree_fuel]. rewrite sort_sorted_fixed by exact Hlev.
  apply mapM_Some_2, Forall_Forall2_diag, Forall_forall.
  intros x Hx.
  pose proof (depth_le_depthAll x nodes (proj1 (list_elem_of_In _ _) Hx)) as Hdx.
  apply sortedBelow_all in Hbelow. rewrite Forall_forall in Hbelow.
  specialize (Hbelow x Hx).
  destruct x as [i a [rows|] e]; cbn [Tree.subRows]; [|reflexivity].
  change (Tree.depth (Tree.mkNode i a (Some rows) e))
    with (S (Tree.depthAll rows)) in Hdx.
  rewrite (IH rows) by (lia || exact Hbelow). reflexivity.
Qed.

(** [sortAccountTree] changes nothing in a tree every level of which is
    in order already. *)
Theorem sortAccountTree_sorted_fixed (cmp : string -> string -> Z)
    (nodes : list Tree.Node) :
  sortedTree cmp nodes -> Tree.sortAccountTree cmp nodes = Some nodes.
Proof.
  intros H. apply sortAccountTree_fuel_fixed; [|exact H].
  unfold lt. reflexivity.
Qed.

Lemma sortAccountTree_sorted_fixed_witness :
  Tree.sortAccountTree codeCompare exampleSorted = Some exampleSorted.
Proof.
  apply (sortAccountTree_sorted_fixed codeCompare exampleSorted).
  split.
  - repeat constructor; vm_compute; discriminate.
  - simpl. repeat split; repeat constructor; vm_compute; discriminate.
Defined.

(** X30: under a collation that compares any two names one way or the other,
    sorting a sorted tree again with [sortAccountTree] changes nothing:
    the pass can be run any number of times. *)
Theorem sortAccountTree_idempotent (cmp : string -> string -> Z)
    (nodes : list Tree.Node) :
  (forall a b, cmp a b <= 0 \/ cmp b a <= 0) ->
  exists res,
    Tree.sortAccountTree cmp nodes = Some res
    /\ Tree.sortAccountTree cmp res = Some res.
Proof.
  intros Htot. destruct (sortAccountTree_returns cmp nodes) as [res Hres].
  exists res. split; [exact Hres|].
  apply sortAccountTree_fuel_fixed; [unfold lt; reflexivity|].
  exact (sortAccountTree_fuel_sorted cmp Htot _ _ _ Hres).
Qed.

Lemma sortAccountTree_idempotent_witness :
  exists res,
    Tree.sortAccountTree lengthCompare exampleBuilt = Some res
    /\ Tree.sortAccountTree lengthCompare res = Some res.
Proof.
  apply (sortAccountTree_idempotent lengthCompare exampleBuilt).
  intros a b. unfold lengthCompare. lia.
Defined.
